(** * Licensed search bridge: ledger client, fetch engine and orchestrator

    A shallow embedding of [src/services/ledger-service.ts] (class
    [LedgerService]), of [src/services/exa-client.ts], of the tool handler
    of [src/index.ts] (class [CopyrightExaMcp], with [TokenEstimator]) and
    of the record types of [src/types.ts].  The fetch engine
    ([src/services/licensed-fetcher.ts]) is not among the sources: its
    state machine is modelled from the specification, and the handler
    takes the engine as a parameter.

    Asynchronous methods are state transformers over a [World] (clock,
    license cache, log of outbound requests) that either return a value
    or throw; the network is an environment of replies.  An [async]
    method is cut at its [await]: the part before it, and the part that
    resumes when the reply arrives.  The handler's [Promise.all] runs all
    first parts in order and resumes the pending ones as their replies
    arrive. *)

From Stdlib Require Import ZArith Lia.
From stdpp Require Import gmap strings list fin_maps sorting.

Local Open Scope Z_scope.
Local Open Scope string_scope.

Set Warnings "-register-all".

(** ** JavaScript values, as far as the ledger responses need them *)

Module Js.

(** A parsed JSON document ([response.data]).  A number literal is kept as
    mantissa and decimal exponent, [JNum m e] standing for m * 10^e. *)
Inductive JsValue : Type :=
| JUndefined
| JNull
| JBool (b : bool)
| JNum (m e : Z)
| JStr (s : string)
| JArr (items : list JsValue)
| JObj (fields : list (string * JsValue)).

(** A thrown [Error] object: its [name] and its [message]. *)
Record JsError : Type := mkError { err_name : string; err_message : string }.

(** ToBoolean. *)
Definition truthy (v : JsValue) : bool :=
  match v with
  | JUndefined | JNull => false
  | JBool b => b
  | JNum m _ => negb (Z.eqb m 0)
  | JStr s => negb (String.eqb s "")
  | JArr _ | JObj _ => true
  end.

Fixpoint assoc (k : string) (fs : list (string * JsValue)) : JsValue :=
  match fs with
  | [] => JUndefined
  | (k', v) :: r => if String.eqb k k' then v else assoc k r
  end.

Definition type_error (what k : string) : JsError :=
  mkError "TypeError"
    ("Cannot read properties of " ++ what ++ " (reading '" ++ k ++ "')").

(** [v.k] for the property names the ledger client reads ([license_type],
    [opt_in_status], [rate_per_token], [wallet_id], [id]): reading from
    [null] or [undefined] throws, an object yields the field or
    [undefined], and no primitive or array has a property of these names. *)
Definition get_prop (v : JsValue) (k : string) : JsError + JsValue :=
  match v with
  | JUndefined => inl (type_error "undefined" k)
  | JNull => inl (type_error "null" k)
  | JObj fs => inr (assoc k fs)
  | _ => inr JUndefined
  end.

(** [v === s] for a string literal [s]. *)
Definition strict_eq_str (v : JsValue) (s : string) : bool :=
  match v with
  | JStr t => String.eqb t s
  | _ => false
  end.

(** [arr.find(p)], where the callback [p] may throw: the first element on
    which [p] is true, [undefined] when there is none; an exception of the
    callback ends the search. *)
Fixpoint array_find (p : JsValue -> JsError + bool) (l : list JsValue)
  : JsError + JsValue :=
  match l with
  | [] => inr JUndefined
  | x :: r =>
      match p x with
      | inl e => inl e
      | inr true => inr x
      | inr false => array_find p r
      end
  end.

(** [arr[0]]. *)
Definition first_item (l : list JsValue) : JsValue :=
  match l with [] => JUndefined | x :: _ => x end.

(** [String(e)] for an [Error] object ([Error.prototype.toString]). *)
Definition error_to_string (e : JsError) : string :=
  if String.eqb (err_name e) "" then err_message e
  else if String.eqb (err_message e) "" then err_name e
  else err_name e ++ ": " ++ err_message e.

(** [e?.message || String(e)]. *)
Definition error_text (e : JsError) : string :=
  if String.eqb (err_message e) "" then error_to_string e else err_message e.

End Js.
Export Js.

(** ** Record types of [types.ts] *)

Inductive LicenseStage := infer | embed | tune | train.
Inductive Distribution := private | public.
Inductive Action := allow | deny | unknown.

(** [LedgerLicenseInfo].  The three fields copied from the ledger record
    are kept as the JavaScript values they are; [JUndefined] is an absent
    field (JSON.stringify drops it). *)
Record LedgerLicenseInfo : Type := mkLicense {
  lic_url : string;
  license_found : bool;
  lic_action : Action;
  lic_price : JsValue;
  lic_payto : JsValue;
  lic_license_version_id : JsValue;
  lic_license_sig : option string;
  lic_error : option string
}.

Record LedgerAcquireResponse : Type := mkAcquireResponse {
  licensed_url : string;
  acq_license_version_id : Z;
  acq_license_sig : string;
  expires_at : string;
  cost : JsValue;
  currency : string;
  acq_stage : LicenseStage;
  acq_distribution : Distribution;
  acq_estimated_tokens : Z;
  license_status : string;
  rate_per_1k_tokens : JsValue
}.

Record UsageHit : Type := mkHit { hit_url : string; hit_tokens : Z }.

Record UsageLogRequest : Type := mkUsage { gen_id : string; hits : list UsageHit }.

(** [LedgerServiceConfig]; the numbers are the integers [parseInt] reads
    from numerals. *)
Record LedgerServiceConfig : Type := mkConfig {
  apiUrl : string;
  apiKey : option string;
  enableTracking : bool;
  enableCache : bool;
  cacheTTLSeconds : Z;
  licenseCheckTimeoutMs : Z;
  licenseAcquireTimeoutMs : Z;
  usageLogTimeoutMs : Z
}.

Inductive PaymentMethod := account_balance | x402.

(** The [params] of [acquireLicenseToken]. *)
Record AcquireParams : Type := mkAcquire {
  ap_url : string;
  ap_stage : LicenseStage;
  ap_distribution : Distribution;
  ap_estimatedTokens : Z;
  ap_paymentMethod : PaymentMethod;
  ap_paymentProof : option string;
  ap_paymentAmount : option Z
}.

Record ExaSearchRequest : Type := mkSearchRequest {
  sr_query : string;
  sr_numResults : Z;
  sr_type : string;
  sr_includeDomains : option (list string);
  sr_excludeDomains : option (list string);
  sr_text : bool
}.

(** [ExaSearchResult]: [res_url = None] is a result without a [url]
    field; [res_rest] holds the other fields, which the handler copies. *)
Record ExaSearchResult : Type := mkResult {
  res_url : option string;
  res_rest : list (string * JsValue)
}.

Record ExaSearchResponse : Type := mkSearchResponse {
  results : option (list ExaSearchResult);
  requestId : option string
}.

Record X402Hints : Type := mkHints {
  x_price : option string;
  x_payto : option string;
  x_stage : option string;
  x_distribution : option string;
  x_facilitator_url : option string
}.

Record AcquireOutcome : Type := mkAcquireOutcome {
  ao_licensed_url : string;
  ao_cost : JsValue;
  ao_currency : string;
  ao_expires_at : string;
  ao_license_version_id : Z;
  ao_license_sig : string
}.

Record LicensedFetchResult : Type := mkFetchResult {
  requested_url : string;
  final_url : string;
  status : Z;
  content_type : option string;
  content_text : option string;
  payment_attempted : bool;
  payment_required : bool;
  fr_x402 : option X402Hints;
  acquire : option AcquireOutcome;
  fr_error : option string
}.

(** A plain HTTP response, as the fetch engine sees it; header names are
    lower case. *)
Record HttpResponse : Type := mkHttpResponse {
  resp_final_url : string;
  resp_status : Z;
  resp_headers : list (string * string);
  resp_body : string
}.

(** ** The world: clock, license cache, outbound requests *)

(** Outbound requests, newest first. *)
Inductive Event : Type :=
| EvLedgerLicenses (url : string)
| EvLedgerAcquire (params : AcquireParams)
| EvLedgerUsage (payload : UsageLogRequest)
| EvExaSearch (body : ExaSearchRequest)
| EvHttpGet (url : string).

(** What the network answers to one request: after [elapsed] milliseconds
    the promise is rejected with an error (transport failure, timeout,
    status outside 2xx for axios) or fulfilled with the response data. *)
Record Reply (A : Type) : Type := mkReply {
  elapsed : Z;
  result : JsError + A
}.
Arguments mkReply {A} _ _.
Arguments elapsed {A} _.
Arguments result {A} _.

(** The environment answers a request as a function of the requests
    issued before it. *)
Record Env : Type := mkEnv {
  ledger_licenses : list Event -> string -> Reply JsValue;
  ledger_acquire : list Event -> AcquireParams -> Reply LedgerAcquireResponse;
  ledger_usage : list Event -> UsageLogRequest -> Reply unit;
  exa_search : list Event -> ExaSearchRequest -> Reply ExaSearchResponse;
  http_get : list Event -> string -> Reply HttpResponse;
  randomUUID : list Event -> string
}.

Record CacheEntry : Type := mkEntry {
  ce_license : LedgerLicenseInfo;
  ce_expires : Z
}.

Record World : Type := mkWorld {
  now : Z;                                   (* Date.now() *)
  licenseCache : gmap string CacheEntry;     (* LedgerService.licenseCache *)
  trace : list Event
}.

Definition set_now (t : Z) (w : World) : World :=
  mkWorld t (licenseCache w) (trace w).
Definition set_cache (c : gmap string CacheEntry) (w : World) : World :=
  mkWorld (now w) c (trace w).
Definition log_event (e : Event) (w : World) : World :=
  mkWorld (now w) (licenseCache w) (e :: trace w).

(** ** Computations that return or throw *)

Inductive Outcome (A : Type) : Type :=
| Ret (a : A)
| Throw (e : JsError).
Arguments Ret {A} _.
Arguments Throw {A} _.

Definition M (A : Type) : Type := World -> Outcome A * World.

Definition ret {A} (a : A) : M A := fun w => (Ret a, w).
Definition throw {A} (e : JsError) : M A := fun w => (Throw e, w).
Definition bind {A B} (c : M A) (k : A -> M B) : M B :=
  fun w => match c w with
           | (Ret a, w') => k a w'
           | (Throw e, w') => (Throw e, w')
           end.
(** [try { c } catch (e) { h e }] *)
Definition try_catch {A} (c : M A) (h : JsError -> M A) : M A :=
  fun w => match c w with
           | (Ret a, w') => (Ret a, w')
           | (Throw e, w') => h e w'
           end.
Definition lift {A} (r : JsError + A) : M A :=
  match r with inl e => throw e | inr a => ret a end.

Notation "'let!' x := c 'in' k" := (bind c (fun x => k))
  (at level 10, x name, c at level 100, k at level 200).

Definition date_now : M Z := fun w => (Ret (now w), w).
Definition cache_get (url : string) : M (option CacheEntry) :=
  fun w => (Ret (licenseCache w !! url), w).
Definition cache_set (url : string) (c : CacheEntry) : M unit :=
  fun w => (Ret tt, set_cache (<[url := c]> (licenseCache w)) w).

(** Issue a request: it is logged, and its reply is fixed by the requests
    issued before it. *)
Definition send {A} (ev : Event) (answer : list Event -> Reply A) : M (Reply A) :=
  fun w => (Ret (answer (trace w)), log_event ev w).

(** [await] a reply that is the only one outstanding: the clock moves on
    by the time the reply took. *)
Definition await {A} (r : Reply A) : M A :=
  fun w => (match result r with inl e => Throw e | inr a => Ret a end,
            set_now (now w + elapsed r) w).

(** ** [LedgerService] *)

Module Ledger.
Section LedgerService.

Variable env : Env.
Variable config : LedgerServiceConfig.

(** [!this.config.apiKey] is false. *)
Definition has_key : bool :=
  match apiKey config with
  | Some k => negb (String.eqb k "")
  | None => false
  end.

(** [{ url, license_found: false, action: "unknown" }] *)
Definition no_license (url : string) : LedgerLicenseInfo :=
  mkLicense url false unknown JUndefined JUndefined JUndefined None None.

(** The verdict of the [catch] clause. *)
Definition degraded (url : string) (e : JsError) : LedgerLicenseInfo :=
  mkLicense url false unknown JUndefined JUndefined JUndefined None
    (Some (error_text e)).

Definition is_ai_license (l : JsValue) : JsError + bool :=
  match get_prop l "license_type" with
  | inl e => inl e
  | inr t => inr (strict_eq_str t "ai-license")
  end.

(** [licenseArray] ([Array.isArray(response.data) ? response.data :
    [response.data]]) and [licenseData] of [checkLicense]. *)
Definition license_array (data : JsValue) : list JsValue :=
  match data with JArr items => items | _ => [data] end.

Definition select_license (data : JsValue) : JsError + JsValue :=
  match array_find is_ai_license (license_array data) with
  | inl e => inl e
  | inr found =>
      inr (if truthy found then found else first_item (license_array data))
  end.

Definition action_of (opt : JsValue) : Action :=
  if strict_eq_str opt "opt-in" then allow
  else if strict_eq_str opt "opt-out" then deny
  else unknown.

Definition found_of (opt : JsValue) : bool :=
  strict_eq_str opt "opt-in" || strict_eq_str opt "opt-out".

(** The [license] object built from the selected record. *)
Definition build_license (url : string) (licenseData : JsValue) : M LedgerLicenseInfo :=
  let! opt := lift (get_prop licenseData "opt_in_status") in
  let! price := lift (get_prop licenseData "rate_per_token") in
  let! payto := lift (get_prop licenseData "wallet_id") in
  let! id := lift (get_prop licenseData "id") in
  ret (mkLicense url (found_of opt) (action_of opt) price payto id None None).

(** What [checkLicense] does up to its [await]: either it has its verdict
    (tracking disabled, or a cache entry that has not expired), or the
    lookup request is on its way. *)
Inductive Started : Type :=
| Settled (verdict : LedgerLicenseInfo)
| Awaiting (reply : Reply JsValue).

Definition cache_valid (url : string) : M (option LedgerLicenseInfo) :=
  let! cached := cache_get url in
  match cached with
  | Some c =>
      let! t := date_now in
      if ce_expires c >? t then ret (Some (ce_license c)) else ret None
  | None => ret None
  end.

Definition checkLicense_start (url : string) : M Started :=
  if negb (enableTracking config) then ret (Settled (no_license url))
  else
    let! hit := (if enableCache config then cache_valid url else ret None) in
    match hit with
    | Some lic => ret (Settled lic)
    | None =>
        let! r := send (EvLedgerLicenses url) (fun h => ledger_licenses env h url) in
        ret (Awaiting r)
    end.

(** The [try] block from the arrival of the response on; [arrive] is the
    [await] of the pending request. *)
Definition checkLicense_try (arrive : Reply JsValue -> M JsValue)
    (url : string) (r : Reply JsValue) : M LedgerLicenseInfo :=
  let! data := arrive r in
  let! licenseData := lift (select_license data) in
  if negb (truthy licenseData) then ret (no_license url)
  else
    let! license := build_license url licenseData in
    let! stored :=
      (if enableCache config then
         (let! t := date_now in
          cache_set url (mkEntry license (t + cacheTTLSeconds config * 1000)))
       else ret tt) in
    ret license.

Definition checkLicense_finish (arrive : Reply JsValue -> M JsValue)
    (url : string) (r : Reply JsValue) : M LedgerLicenseInfo :=
  try_catch (checkLicense_try arrive url r) (fun e => ret (degraded url e)).

(** [checkLicense(url)], called on its own. *)
Definition checkLicense (url : string) : M LedgerLicenseInfo :=
  let! s := checkLicense_start url in
  match s with
  | Settled v => ret v
  | Awaiting r => checkLicense_finish await url r
  end.

Definition missing_key (endpoint : string) : JsError :=
  mkError "Error" ("COPYRIGHTSH_LEDGER_API_KEY is required for " ++ endpoint).

Definition acquireLicenseToken (params : AcquireParams) : M LedgerAcquireResponse :=
  if negb has_key then throw (missing_key "/api/v1/licenses/acquire")
  else
    let! r := send (EvLedgerAcquire params) (fun h => ledger_acquire env h params) in
    await r.

Definition logUsage (payload : UsageLogRequest) : M unit :=
  if negb has_key then throw (missing_key "/api/v1/usage/log")
  else
    let! r := send (EvLedgerUsage payload) (fun h => ledger_usage env h payload) in
    await r.

End LedgerService.
End Ledger.

(** ** [ExaClient] *)

Module Exa.
Section ExaClient.

Variable env : Env.

(** [search(body)]: one POST to [/search]; the response data is returned,
    a failed request throws. *)
Definition search (body : ExaSearchRequest) : M ExaSearchResponse :=
  let! r := send (EvExaSearch body) (fun h => exa_search env h body) in
  await r.

End ExaClient.
End Exa.

(** ** The licensed fetch engine *)

Module Engine.

(** The options the handler passes to [licensedFetchText] besides the
    ledger service itself. *)
Record FetchOptions : Type := mkOptions {
  fo_stage : LicenseStage;
  fo_distribution : Distribution;
  fo_estimatedTokens : Z;
  fo_maxChars : Z
}.

(** The names of the hint headers of a payment-required response. *)
Record HintHeaders : Type := mkHintHeaders {
  hh_price : string;
  hh_payto : string;
  hh_stage : string;
  hh_distribution : string;
  hh_facilitator_url : string
}.

Section LicensedFetcher.

Variable env : Env.
Variable config : LedgerServiceConfig.
Variable hint_names : HintHeaders.
(** The status reported when a GET fails without any HTTP response. *)
Variable no_response_status : Z.

Fixpoint header (name : string) (hs : list (string * string)) : option string :=
  match hs with
  | [] => None
  | (k, v) :: r => if String.eqb k name then Some v else header name r
  end.

(** The response names the payment scheme as x402 ([payment-required: x402]). *)
Definition declares_x402 (resp : HttpResponse) : bool :=
  match header "payment-required" (resp_headers resp) with
  | Some v => String.eqb v "x402"
  | None => false
  end.

Definition payment_signalled (resp : HttpResponse) : bool :=
  Z.eqb (resp_status resp) 402 && declares_x402 resp.

Definition truncate (maxChars : Z) (body : string) : string :=
  String.substring 0 (Z.to_nat maxChars) body.

Definition parse_hints (resp : HttpResponse) : X402Hints :=
  let hs := resp_headers resp in
  mkHints (header (hh_price hint_names) hs) (header (hh_payto hint_names) hs)
          (header (hh_stage hint_names) hs)
          (header (hh_distribution hint_names) hs)
          (header (hh_facilitator_url hint_names) hs).

Definition grant_details (g : LedgerAcquireResponse) : AcquireOutcome :=
  mkAcquireOutcome (licensed_url g) (cost g) (currency g) (expires_at g)
                   (acq_license_version_id g) (acq_license_sig g).

(** The result record of a response, with the payment fields as given. *)
Definition result_of (url : string) (opts : FetchOptions) (resp : HttpResponse)
    (attempted required : bool) (hints : option X402Hints)
    (grant : option AcquireOutcome) (err : option string) : LicensedFetchResult :=
  mkFetchResult url (resp_final_url resp) (resp_status resp)
    (header "content-type" (resp_headers resp))
    (Some (truncate (fo_maxChars opts) (resp_body resp)))
    attempted required hints grant err.

(** The result record of a GET that got no response. *)
Definition no_response (url target : string) (e : JsError)
    (attempted required : bool) (hints : option X402Hints)
    (grant : option AcquireOutcome) : LicensedFetchResult :=
  mkFetchResult url target no_response_status None None
    attempted required hints grant (Some (error_text e)).

Inductive EngineState : Type :=
| START
| DIRECT_FETCH (pending : Reply HttpResponse)
| PAYMENT_REQUIRED (first : HttpResponse)
| ACQUIRING (first : HttpResponse) (hints : X402Hints)
| RETRY_FETCH (hints : X402Hints) (grant : LedgerAcquireResponse)
| ACQUIRE_FAILED (first : HttpResponse) (hints : X402Hints) (e : JsError)
| DONE (r : LicensedFetchResult).

Definition acquire_params (url : string) (opts : FetchOptions) : AcquireParams :=
  mkAcquire url (fo_stage opts) (fo_distribution opts) (fo_estimatedTokens opts)
            account_balance None None.

(** Modelled from the spec: [licensedFetchText]
    ([src/services/licensed-fetcher.ts]) is not among the sources; this is
    the state machine of section 4.3, one transition per [step]. *)
Definition step (url : string) (opts : FetchOptions) (st : EngineState)
    (w : World) : EngineState * World :=
  match st with
  | START =>
      (DIRECT_FETCH (http_get env (trace w) url), log_event (EvHttpGet url) w)
  | DIRECT_FETCH pending =>
      let w' := set_now (now w + elapsed pending) w in
      match result pending with
      | inl e => (DONE (no_response url url e false false None None), w')
      | inr resp =>
          if payment_signalled resp then (PAYMENT_REQUIRED resp, w')
          else (DONE (result_of url opts resp false false None None None), w')
      end
  | PAYMENT_REQUIRED first => (ACQUIRING first (parse_hints first), w)
  | ACQUIRING first hints =>
      match Ledger.acquireLicenseToken env config (acquire_params url opts) w with
      | (Ret grant, w') => (RETRY_FETCH hints grant, w')
      | (Throw e, w') => (ACQUIRE_FAILED first hints e, w')
      end
  | RETRY_FETCH hints grant =>
      let target := licensed_url grant in
      let pending := http_get env (trace w) target in
      let w' := set_now (now w + elapsed pending) (log_event (EvHttpGet target) w) in
      match result pending with
      | inl e =>
          (DONE (no_response url target e true true (Some hints)
                   (Some (grant_details grant))), w')
      | inr resp =>
          (DONE (result_of url opts resp true true (Some hints)
                   (Some (grant_details grant)) None), w')
      end
  | ACQUIRE_FAILED first hints e =>
      (DONE (result_of url opts first true true (Some hints) None
               (Some (error_text e))), w)
  | DONE r => (DONE r, w)
  end.

Fixpoint run (n : nat) (url : string) (opts : FetchOptions) (st : EngineState)
    (w : World) : EngineState * World :=
  match n with
  | O => (st, w)
  | S n' => let '(st', w') := step url opts st w in run n' url opts st' w'
  end.

Definition produced (st : EngineState) : option LicensedFetchResult :=
  match st with DONE r => Some r | _ => None end.

(** Modelled from the spec: one invocation of the engine on a URL runs the
    machine from [START]; five transitions are the longest path. *)
Definition licensedFetchText (url : string) (opts : FetchOptions) (w : World)
  : option LicensedFetchResult * World :=
  let '(st, w') := run 5 url opts START w in (produced st, w').

(** What the first, direct fetch of [url] observes in world [w]. *)
Definition first_reply (url : string) (w : World) : Reply HttpResponse :=
  http_get env (trace w) url.

Definition observed_x402 (url : string) (w : World) : bool :=
  match result (first_reply url w) with
  | inl _ => false
  | inr resp => payment_signalled resp
  end.

End LicensedFetcher.
End Engine.
Export Engine.

(** ** The tool handler of [index.ts] *)

Module Orchestrator.

(** [TokenEstimator]: [encoder] is the tiktoken encoder, [None] when its
    construction failed; [encode] yields the tokens or throws ([None]). *)
Record TokenEstimator : Type := mkEstimator {
  encoder : option (string -> option (list Z))
}.

(** [text.length]: the UTF-16 code units of the text.  The string holds
    the text in UTF-8: a byte below 128 is one unit, the lead byte of a
    two- or three-byte sequence stands for one unit, the lead byte of a
    four-byte sequence for the two units of a surrogate pair, and the
    continuation bytes a lead byte announces ([pending]) for none.  A
    continuation byte that no lead byte announces counts as one unit, so
    a text that is not empty has a length of at least one. *)
Fixpoint utf16_units (pending : nat) (s : string) : nat :=
  match s with
  | EmptyString => O
  | String c rest =>
      let b := Ascii.nat_of_ascii c in
      if (b <? 128)%nat then S (utf16_units 0 rest)
      else if (b <? 192)%nat then
        match pending with
        | O => S (utf16_units 0 rest)
        | S p => utf16_units p rest
        end
      else if (b <? 224)%nat then S (utf16_units 1 rest)
      else if (b <? 240)%nat then S (utf16_units 2 rest)
      else S (S (utf16_units 3 rest))
  end.

Definition text_length (s : string) : Z := Z.of_nat (utf16_units 0 s).

(** [Math.ceil(text.length / 4)] *)
Definition quarter_up (s : string) : Z := (text_length s + 3) / 4.

Definition estimate (t : TokenEstimator) (text : string) : Z :=
  if String.eqb text "" then 0
  else
    match encoder t with
    | Some encode =>
        match encode text with
        | Some toks => Z.of_nat (length toks)
        | None => quarter_up text
        end
    | None => quarter_up text
    end.

(** The arguments of the tool call, defaults filled in. *)
Record ToolArgs : Type := mkArgs {
  a_query : string;
  a_num_results : Z;
  a_type : string;
  a_include_domains : option (list string);
  a_exclude_domains : option (list string);
  a_fetch : bool;
  a_stage : LicenseStage;
  a_distribution : Distribution;
  a_estimated_tokens : Z;
  a_max_chars : Z
}.

(** [usageLog] *)
Record UsageLog : Type := mkUsageLog {
  ul_ok : bool;
  ul_error : option string;
  ul_gen_id : string;
  ul_hits : nat
}.

(** One element of [enriched]: the search result with its [license] and
    [fetched] fields; [None] is [undefined], which JSON.stringify omits. *)
Record Enriched : Type := mkEnriched {
  en_result : ExaSearchResult;
  en_license : option LedgerLicenseInfo;
  en_fetched : option LicensedFetchResult
}.

Record ResponseBody : Type := mkBody {
  rb_query : string;
  rb_num_results : Z;
  rb_type : string;
  rb_request_id : option string;
  rb_results : list Enriched;
  rb_usage_log : option UsageLog
}.

Definition mcp_error (code : string) (message : string) : JsError :=
  mkError "McpError" (code ++ ": " ++ message).

(** Replies ordered by the time they take. *)
Definition arrives_before (a b : string * Reply JsValue) : Prop :=
  elapsed (snd a) <= elapsed (snd b).

#[global] Instance arrives_before_dec : RelDecision arrives_before.
Proof. intros a b. unfold arrives_before. apply Z_le_dec. Defined.

Section Handler.

Variable env : Env.
Variable config : LedgerServiceConfig.
Variable tokens : TokenEstimator.
(** Modelled from the spec: [licensedFetchText] is not among the sources;
    by sections 4.3 and 7 it turns every failure into fields of its one
    result and does not throw. *)
Variable licensedFetchText :
  string -> FetchOptions -> World -> LicensedFetchResult * World.

(** [results.map((r) => r.url).filter(Boolean)] *)
Definition keep_url (u : option string) : option string :=
  match u with
  | Some s => if String.eqb s "" then None else Some s
  | None => None
  end.

Definition result_urls (rs : list ExaSearchResult) : list string :=
  omap keep_url (map res_url rs).

(** The synchronous part of [Promise.all(urls.map(...))]: every
    [checkLicense] runs up to its [await], in the order of [urls]. *)
Fixpoint start_checks (urls : list string) : M (list (string * Ledger.Started)) :=
  match urls with
  | [] => ret []
  | u :: rest =>
      let! s := Ledger.checkLicense_start env config u in
      let! ss := start_checks rest in
      ret ((u, s) :: ss)
  end.

Definition settled_of (p : string * Ledger.Started) : option (string * LedgerLicenseInfo) :=
  match snd p with Ledger.Settled v => Some (fst p, v) | Ledger.Awaiting _ => None end.

Definition pending_of (p : string * Ledger.Started) : option (string * Reply JsValue) :=
  match snd p with Ledger.Settled _ => None | Ledger.Awaiting r => Some (fst p, r) end.

(** [licenseMap.set(u, lic)] for a list of verdicts. *)
Definition set_all (m : gmap string LedgerLicenseInfo)
    (vs : list (string * LedgerLicenseInfo)) : gmap string LedgerLicenseInfo :=
  foldl (fun acc p => <[fst p := snd p]> acc) m vs.

(** A reply of the batch arrives [elapsed] milliseconds after [t0], the
    moment the requests went out. *)
Definition arrive_at (t0 : Z) (r : Reply JsValue) : M JsValue :=
  fun w => (match result r with inl e => Throw e | inr a => Ret a end,
            set_now (t0 + elapsed r) w).

(** The pending checks resume in the order their replies arrive. *)
Fixpoint finish_checks (t0 : Z) (pending : list (string * Reply JsValue))
    (licenseMap : gmap string LedgerLicenseInfo)
  : M (gmap string LedgerLicenseInfo) :=
  match pending with
  | [] => ret licenseMap
  | (u, r) :: rest =>
      let! lic := Ledger.checkLicense_finish config (arrive_at t0) u r in
      finish_checks t0 rest (<[u := lic]> licenseMap)
  end.

Definition check_licenses (urls : list string) : M (gmap string LedgerLicenseInfo) :=
  let! started := start_checks urls in
  let! t0 := date_now in
  finish_checks t0 (merge_sort arrives_before (omap pending_of started))
    (set_all ∅ (omap settled_of started)).

(** [fetched.content_text && fetched.status >= 200 && fetched.status < 300],
    then the token estimate and its test. *)
Definition hit_of (u : string) (fetched : LicensedFetchResult) : option UsageHit :=
  match content_text fetched with
  | Some text =>
      if negb (String.eqb text "") && (200 <=? status fetched)%Z
         && (status fetched <? 300)%Z
      then
        let t := estimate tokens text in
        if (0 <? t)%Z then Some (mkHit u t) else None
      else None
  | None => None
  end.

(** The [for (const u of urls)] loop. *)
Fixpoint fetch_loop (opts : FetchOptions) (urls : list string)
    (fetchedByUrl : gmap string LicensedFetchResult) (hits : list UsageHit)
    (w : World) : (gmap string LicensedFetchResult * list UsageHit) * World :=
  match urls with
  | [] => ((fetchedByUrl, hits), w)
  | u :: rest =>
      let '(fetched, w') := licensedFetchText u opts w in
      let fetchedByUrl' := <[u := fetched]> fetchedByUrl in
      let hits' := match hit_of u fetched with
                   | Some h => (hits ++ [h])%list
                   | None => hits
                   end in
      fetch_loop opts rest fetchedByUrl' hits' w'
  end.

Definition random_uuid : M string :=
  fun w => (Ret (randomUUID env (trace w)), w).

(** [if (hits.length > 0) { ... logUsage ... }] *)
Definition record_usage (hits : list UsageHit) : M (option UsageLog) :=
  if (0 <? length hits)%nat then
    let! genId := random_uuid in
    try_catch
      (let! logged := Ledger.logUsage env config (mkUsage genId hits) in
       ret (Some (mkUsageLog true None genId (length hits))))
      (fun e => ret (Some (mkUsageLog false (Some (error_text e)) genId (length hits))))
  else ret None.

(** [licenseMap.get(r.url)]: a [Map] compares keys as they are, and no key
    of [licenseMap] is [undefined]. *)
Definition map_get {V} (m : gmap string V) (key : option string) : option V :=
  match key with Some s => m !! s | None => None end.

(** [fetchedByUrl[r.url]]: a property key of a plain object is a string,
    and [undefined] as a key is the string "undefined".  The object is
    read at the keys the loop has written, at the empty string and at
    "undefined"; neither of the last two is inherited from a prototype,
    so a finite map from strings stands for the object. *)
Definition property_key (key : option string) : string :=
  match key with Some s => s | None => "undefined" end.

Definition enrich (licenseMap : gmap string LedgerLicenseInfo)
    (fetchedByUrl : option (gmap string LicensedFetchResult))
    (r : ExaSearchResult) : Enriched :=
  mkEnriched r (map_get licenseMap (res_url r))
    (match fetchedByUrl with
     | Some fetched => fetched !! property_key (res_url r)
     | None => None
     end).

Definition fetch_options (args : ToolArgs) : FetchOptions :=
  mkOptions (a_stage args) (a_distribution args) (a_estimated_tokens args)
            (a_max_chars args).

Definition search_request (args : ToolArgs) : ExaSearchRequest :=
  mkSearchRequest (a_query args) (a_num_results args) (a_type args)
    (a_include_domains args) (a_exclude_domains args) false.

(** [if (fetch) { ... }]: the fetch loop, then the usage log. *)
Definition fetch_and_log (args : ToolArgs) (urls : list string)
  : M (option (gmap string LicensedFetchResult) * option UsageLog) :=
  if a_fetch args then
    let! fh := (fun w => let '(x, w') := fetch_loop (fetch_options args) urls ∅ [] w
                         in (Ret x, w')) in
    let! usageLog := record_usage (snd fh) in
    ret (Some (fst fh), usageLog)
  else ret (None, None).

(** The [CallToolRequestSchema] handler; its value is [responseBody],
    which the handler returns serialised. *)
Definition call_tool (name : string) (args : ToolArgs) : M ResponseBody :=
  if negb (String.eqb name "copyrightish-exa-search") then
    throw (mcp_error "MethodNotFound" ("Unknown tool: " ++ name))
  else if String.eqb (a_query args) "" then
    throw (mcp_error "InvalidParams" "query is required")
  else
    let! searchResp := Exa.search env (search_request args) in
    let rs := default [] (results searchResp) in
    let urls := result_urls rs in
    let! licenseMap := check_licenses urls in
    let! fl := fetch_and_log args urls in
    ret (mkBody (a_query args) (a_num_results args) (a_type args)
           (requestId searchResp)
           (map (enrich licenseMap (fst fl)) rs)
           (snd fl)).

End Handler.
End Orchestrator.

(** ** Environment, self check and entry point *)

Module Cli.

(** [process.env]: the variables that are set, with their values. *)
Abbreviation ProcessEnv := (gmap string string).

(** [getEnvBool(name, defaultValue)] of [ledger-service.ts]. *)
Definition getEnvBool (penv : ProcessEnv) (name : string) (defaultValue : bool)
  : bool :=
  match penv !! name with
  | None => defaultValue
  | Some v => String.eqb v "true" || String.eqb v "1" || String.eqb v "yes"
  end.

(** [!v] for an environment variable: unset or empty. *)
Definition unset_or_empty (v : option string) : bool :=
  match v with
  | Some s => String.eqb s ""
  | None => true
  end.

(** [v || fallback] for an environment variable. *)
Definition or_default (v : option string) (fallback : string) : string :=
  if unset_or_empty v then fallback else default "" v.

(** The [apiKey] the [LedgerService] constructor reads when it is built
    without overrides, as the server builds it. *)
Definition ledger_apiKey (penv : ProcessEnv) : option string :=
  penv !! "COPYRIGHTSH_LEDGER_API_KEY".

(** The [ExaClient] object: what its constructor keeps. *)
Record ExaClient : Type := mkExaClient {
  exa_baseUrl : string;
  exa_apiKey : string
}.

(** [new ExaClient(apiKey, baseUrl)] *)
Definition new_ExaClient (apiKey : string) (baseUrl : option string)
  : JsError + ExaClient :=
  if String.eqb apiKey "" then inl (mkError "Error" "EXA_API_KEY is required")
  else inr (mkExaClient (default "https://api.exa.ai" baseUrl) apiKey).

(** [listTools()]: the array it prints. *)
Definition listTools : list string := ["copyrightish-exa-search"].

(** [`set (${key.slice(0, n)}…)`] or ["MISSING"]; keys are ASCII, so the
    first [n] characters are the first [n] bytes. *)
Definition key_report (v : option string) (n : nat) : string :=
  if unset_or_empty v then "MISSING"
  else "set (" ++ String.substring 0 n (default "" v) ++ "…)".

Definition doctor_issues (penv : ProcessEnv) : list string :=
  ((if unset_or_empty (penv !! "EXA_API_KEY") then ["EXA_API_KEY missing"] else [])
   ++ (if unset_or_empty (penv !! "COPYRIGHTSH_LEDGER_API_KEY")
       then ["COPYRIGHTSH_LEDGER_API_KEY missing (required for acquire + usage logging)"]
       else []))%list.

(** [doctor()]: the lines it prints and, when it ends the process, the
    exit code. *)
Definition doctor (penv : ProcessEnv) : list string * option Z :=
  let issues := doctor_issues penv in
  let report :=
    ["🩺 Copyright.sh Exa MCP Doctor";
     "- EXA_API_KEY: " ++ key_report (penv !! "EXA_API_KEY") 6;
     "- COPYRIGHTSH_LEDGER_API: "
       ++ or_default (penv !! "COPYRIGHTSH_LEDGER_API") "https://ledger.copyright.sh";
     "- COPYRIGHTSH_LEDGER_API_KEY: "
       ++ key_report (penv !! "COPYRIGHTSH_LEDGER_API_KEY") 4] in
  if (0 <? length issues)%nat then
    ((report ++ [String.append "Status: ❌ " (String.concat "; " issues)])%list, Some 1)
  else ((report ++ ["Status: ✅ Ready"])%list, None).

(** What the command line asks for: [--help] and [--version], which
    yargs serves itself ([.help()], and the version option it has by
    default), and the two options [main] declares. *)
Record Argv : Type := mkArgv {
  argv_help : bool;
  argv_version : bool;
  argv_list_tools : bool;
  argv_doctor : bool
}.

(** What [main()] does with the command line and the environment.
    [ServedByYargs]: [parse()] printed the help or the version and ended
    the process with code 0, and nothing of [main] after it ran. *)
Inductive MainOutcome : Type :=
| ServedByYargs
| Listed (tools : list string)
| Doctored (lines : list string) (exit_code : option Z)
| Refused (message : string) (exit_code : Z)
| Serving (exaKey : string).

Definition main (argv : Argv) (penv : ProcessEnv) : MainOutcome :=
  if argv_help argv || argv_version argv then ServedByYargs
  else if argv_list_tools argv then Listed listTools
  else if argv_doctor argv then
    let '(lines, code) := doctor penv in Doctored lines code
  else if unset_or_empty (penv !! "EXA_API_KEY") then
    Refused "EXA_API_KEY is required to start the MCP server." 1
  else Serving (default "" (penv !! "EXA_API_KEY")).

End Cli.

(** * Vocabulary of the properties *)

Module LedgerSpec.
Import Ledger.

(** The field [k] of a record that is not [null] or [undefined]. *)
Definition field (rec : JsValue) (k : string) : JsValue :=
  match rec with JObj fs => assoc k fs | _ => JUndefined end.

(** The verdict built from a ledger record. *)
Definition license_of (url : string) (rec : JsValue) : LedgerLicenseInfo :=
  mkLicense url (found_of (field rec "opt_in_status"))
    (action_of (field rec "opt_in_status"))
    (field rec "rate_per_token") (field rec "wallet_id") (field rec "id")
    None None.

(** The cache entry of [url] that has not expired, if caching is on. *)
Definition valid_entry (cfg : LedgerServiceConfig) (url : string) (w : World)
  : option LedgerLicenseInfo :=
  if enableCache cfg then
    match licenseCache w !! url with
    | Some c => if ce_expires c >? now w then Some (ce_license c) else None
    | None => None
    end
  else None.

(** The world after a verdict was stored, if caching is on. *)
Definition stored (cfg : LedgerServiceConfig) (url : string)
    (lic : LedgerLicenseInfo) (w : World) : World :=
  if enableCache cfg then
    set_cache (<[url := mkEntry lic (now w + cacheTTLSeconds cfg * 1000)]>
                 (licenseCache w)) w
  else w.

(** Every entry of the cache is the verdict of a ledger record. *)
Definition cache_sound (w : World) : Prop :=
  forall u c, licenseCache w !! u = Some c ->
    exists rec, truthy rec = true /\ ce_license c = license_of u rec.


(** When the lookup behind reply [r] fails with [e]: the request is
    rejected, or reading the response data throws. *)
Definition lookup_failed (r : Reply JsValue) (e : JsError) : Prop :=
  result r = inl e \/
  exists data, result r = inr data /\ select_license data = inl e.

(** The records of a response that is one record or a list of records. *)
Definition as_record (v : JsValue) : option (list (string * JsValue)) :=
  match v with JObj fs => Some fs | _ => None end.

Definition records_of (data : JsValue) : option (list (list (string * JsValue))) :=
  match data with
  | JArr items => mapM as_record items
  | JObj fs => Some [fs]
  | _ => None
  end.

Definition ai_typed (fs : list (string * JsValue)) : bool :=
  strict_eq_str (assoc "license_type" fs) "ai-license".

(** The selection as the specification words it: the record of the
    AI-license type if there is one (the first such), else the first
    record. *)
Definition spec_select (recs : list (list (string * JsValue)))
  : option (list (string * JsValue)) :=
  match List.find ai_typed recs with
  | Some a => Some a
  | None => head recs
  end.


(** The claim of idempotence read literally: a second call [d]
    milliseconds after the first returns the same outcome and issues no
    request. *)
Definition repeat_is_idempotent (env : Env) (cfg : LedgerServiceConfig)
    (url : string) (w : World) (d : Z) : Prop :=
  let '(o1, w1) := checkLicense env cfg url w in
  let '(o2, w2) := checkLicense env cfg url (set_now (now w1 + d) w1) in
  o2 = o1 /\ trace w2 = trace w1.

(** The lookup behind reply [r] found no record to report. *)
Definition lookup_found_nothing (r : Reply JsValue) : Prop :=
  exists data rec,
    result r = inr data /\ select_license data = inr rec /\ truthy rec = false.

End LedgerSpec.

Module OrchestratorSpec.
Import Orchestrator.

Section Fetches.
Variable licensedFetchText :
  string -> FetchOptions -> World -> LicensedFetchResult * World.

(** The fetches the loop performs from world [w], in order: each URL with
    the result its fetch produced. *)
Fixpoint fetch_results (opts : FetchOptions) (urls : list string) (w : World)
  : list (string * LicensedFetchResult) :=
  match urls with
  | [] => []
  | u :: rest =>
      let '(fetched, w') := licensedFetchText u opts w in
      (u, fetched) :: fetch_results opts rest w'
  end.

(** The world after those fetches. *)
Fixpoint after_fetches (opts : FetchOptions) (urls : list string) (w : World)
  : World :=
  match urls with
  | [] => w
  | u :: rest => after_fetches opts rest (snd (licensedFetchText u opts w))
  end.

End Fetches.

(** What one pass of the loop does to [hits]. *)
Definition push_hit (tokens : TokenEstimator) (hits : list UsageHit)
    (p : string * LicensedFetchResult) : list UsageHit :=
  match hit_of tokens (fst p) (snd p) with
  | Some h => (hits ++ [h])%list
  | None => hits
  end.

(** The [usageLog] the handler reports for the outcome of [logUsage]. *)
Definition usage_log_of (o : Outcome unit) (genId : string) (n : nat) : UsageLog :=
  match o with
  | Ret _ => mkUsageLog true None genId n
  | Throw e => mkUsageLog false (Some (error_text e)) genId n
  end.

(** The usage batch of a request whose fetch loop starts in world [w]:
    the payload handed to [logUsage]. *)
Definition usage_batch (env : Env) (tokens : TokenEstimator)
    (licensedFetchText :
       string -> FetchOptions -> World -> LicensedFetchResult * World)
    (opts : FetchOptions) (urls : list string) (w : World) : UsageLogRequest :=
  let '((_, hits), w1) := fetch_loop tokens licensedFetchText opts urls ∅ [] w in
  mkUsage (randomUUID env (trace w1)) hits.

(** A search result without a usable [url]. *)
Definition no_url (r : ExaSearchResult) : Prop :=
  res_url r = None \/ res_url r = Some "".

End OrchestratorSpec.

Module ExtraSpec.
Import Ledger LedgerSpec.

(** A response body that is neither a list nor a record, nor false in a
    condition: [true], a number other than zero, a non-empty string. *)
Definition plain_value (data : JsValue) : bool :=
  match data with
  | JBool b => b
  | JNum m _ => negb (Z.eqb m 0)
  | JStr s => negb (String.eqb s "")
  | _ => false
  end.

(** [null] or [undefined]: the values whose properties cannot be read. *)
Definition nullish (v : JsValue) : bool :=
  match v with JUndefined | JNull => true | _ => false end.

(** The word [typeof]-style messages use for a nullish value. *)
Definition nullish_name (v : JsValue) : string :=
  match v with JNull => "null" | _ => "undefined" end.

(** A record of the AI-license type. *)
Definition ai_licensed (v : JsValue) : bool :=
  match v with JObj fs => ai_typed fs | _ => false end.

(** [url] has no cache entry that [checkLicense] would serve in [w]. *)
Definition cache_miss (cfg : LedgerServiceConfig) (w : World) (url : string)
  : bool :=
  match valid_entry cfg url w with None => true | Some _ => false end.

(** Every verdict of the map is filed under the URL it names. *)
Definition filed_by_url (m : gmap string LedgerLicenseInfo) : Prop :=
  forall u v, m !! u = Some v -> lic_url v = u.

End ExtraSpec.

(** * Sample data *)

Module Sample.

Definition ai_record : list (string * JsValue) :=
  [("license_type", JStr "ai-license"); ("opt_in_status", JStr "opt-in");
   ("rate_per_token", JNum 2 (-3)); ("wallet_id", JStr "wallet-1");
   ("id", JNum 7 0)].

Definition other_record : list (string * JsValue) :=
  [("license_type", JStr "tdm"); ("opt_in_status", JStr "opt-out");
   ("rate_per_token", JNum 0 0); ("wallet_id", JStr "wallet-2");
   ("id", JNum 4 0)].

Definition timed_out : JsError :=
  mkError "AxiosError" "timeout of 5000ms exceeded".

Definition grant : LedgerAcquireResponse :=
  mkAcquireResponse "https://pub.example/a?license=tok" 7 "sig" "2026-01-01T00:00:00Z"
    (JNum 3 (-3)) "USD" infer private 1500 "active" (JNum 2 (-3)).

Definition page (st : Z) (hs : list (string * string)) (body : string)
  : HttpResponse := mkHttpResponse "https://pub.example/a" st hs body.

(** A ledger whose first lookup times out and whose later lookups list
    two records; a publisher that asks for payment until the licensed URL
    is used. *)
Definition env : Env :=
  mkEnv
    (fun h _ => match h with
                | [] => mkReply 5000 (inl timed_out)
                | _ => mkReply 20 (inr (JArr [JObj other_record; JObj ai_record]))
                end)
    (fun _ _ => mkReply 30 (inr grant))
    (fun _ _ => mkReply 10 (inl (mkError "AxiosError" "Request failed with status code 500")))
    (fun _ _ => mkReply 40
       (inr (mkSearchResponse
               (Some [mkResult None []; mkResult (Some "undefined") [];
                      mkResult (Some "") []])
               (Some "req-1"))))
    (fun _ u => if String.eqb u "https://pub.example/a"
                then mkReply 15 (inr (page 402 [("payment-required", "x402")] "pay"))
                else mkReply 15 (inr (page 200 [("content-type", "text/html")] "hello")))
    (fun _ => "gen-1").

(** A ledger behind a gateway that answers every lookup with status 200
    and a page of text: the body is not JSON, and the HTTP client hands
    it on as the string it is. *)
Definition gateway_page : JsValue := JStr "<html>Bad gateway</html>".

Definition gateway_env : Env :=
  mkEnv (fun _ _ => mkReply 20 (inr gateway_page))
    (ledger_acquire env) (ledger_usage env) (exa_search env) (http_get env)
    (randomUUID env).

Definition config : LedgerServiceConfig :=
  mkConfig "https://ledger.copyright.sh" (Some "key") true true 300 5000 8000 3000.

Definition config_no_key : LedgerServiceConfig :=
  mkConfig "https://ledger.copyright.sh" None true true 300 5000 8000 3000.

Definition world0 : World := mkWorld 1000 ∅ [].

(** A world in which one lookup has already been issued. *)
Definition world1 : World := mkWorld 7000 ∅ [EvLedgerLicenses "https://a.example"].


(** A publisher that answers every GET with 200 and a short page. *)
Definition fetcher (u : string) (opts : FetchOptions) (w : World)
  : LicensedFetchResult * World :=
  (mkFetchResult u u 200 (Some "text/html") (Some "hello") false false None None None,
   log_event (EvHttpGet u) w).

Definition tokens : Orchestrator.TokenEstimator := Orchestrator.mkEstimator None.

(** A publisher that answers the first GET of a run with a page and every
    later one with an error. *)
Definition tiring_fetcher (u : string) (opts : FetchOptions) (w : World)
  : LicensedFetchResult * World :=
  (match trace w with
   | [] => mkFetchResult u u 200 (Some "text/html") (Some "hello") false false
             None None None
   | _ => mkFetchResult u u 500 None (Some "oops") false false None None None
   end,
   log_event (EvHttpGet u) w).

(** An environment with both keys set. *)
Definition process_env : gmap string string :=
  <["EXA_API_KEY" := "exa-12345678"]>
    (<["COPYRIGHTSH_LEDGER_API_KEY" := "cs-ledger-1"]> ∅).

Definition args : Orchestrator.ToolArgs :=
  Orchestrator.mkArgs "AI licensing news" 10 "neural" None None true
    infer private 1500 200000.

End Sample.

(** * Properties *)

(** ** The definitions at work *)

Module Checks.
Import Ledger Orchestrator.

Example select_prefers_ai_license :
  select_license (JArr [JObj Sample.other_record; JObj Sample.ai_record])
  = inr (JObj Sample.ai_record).
Proof. reflexivity. Qed.

Example select_falls_back_to_first :
  select_license (JArr [JObj Sample.other_record; JObj []])
  = inr (JObj Sample.other_record).
Proof. reflexivity. Qed.

Example select_of_empty_list : select_license (JArr []) = inr JUndefined.
Proof. reflexivity. Qed.

Example select_null_element_throws :
  select_license (JArr [JNull; JObj Sample.ai_record])
  = inl (mkError "TypeError"
           "Cannot read properties of null (reading 'license_type')").
Proof. reflexivity. Qed.

Example check_of_empty_list_stores_nothing :
  checkLicense
    (mkEnv (fun _ _ => mkReply 20 (inr (JArr []))) (ledger_acquire Sample.env)
       (ledger_usage Sample.env) (exa_search Sample.env) (http_get Sample.env)
       (randomUUID Sample.env))
    Sample.config "https://a.example" Sample.world0
  = (Ret (no_license "https://a.example"),
     mkWorld 1020 ∅ [EvLedgerLicenses "https://a.example"]).
Proof. reflexivity. Qed.

Example error_text_of_timeout :
  error_text Sample.timed_out = "timeout of 5000ms exceeded".
Proof. reflexivity. Qed.

Example error_text_without_message : error_text (mkError "TypeError" "") = "TypeError".
Proof. reflexivity. Qed.

Example estimate_without_encoder : estimate Sample.tokens "hello" = 2.
Proof. reflexivity. Qed.

Example estimate_of_nothing : estimate Sample.tokens "" = 0.
Proof. reflexivity. Qed.

Example length_counts_code_units : text_length "éééé" = 4.
Proof. reflexivity. Qed.

Example length_of_surrogate_pair : text_length "🩺" = 2.
Proof. reflexivity. Qed.

Example estimate_of_accented_text : estimate Sample.tokens "éééé" = 1.
Proof. reflexivity. Qed.

Example urls_skip_missing_and_empty :
  result_urls [mkResult None []; mkResult (Some "https://x.example") [];
               mkResult (Some "") []]
  = ["https://x.example"].
Proof. reflexivity. Qed.

Example no_hit_for_error_page :
  hit_of Sample.tokens "https://x.example"
    (mkFetchResult "https://x.example" "https://x.example" 404 None
       (Some "not found") false false None None None)
  = None.
Proof. reflexivity. Qed.

End Checks.

(** ** The ledger client *)

Module LedgerFacts.
Import Ledger LedgerSpec ExtraSpec.

Lemma get_prop_truthy rec k :
  truthy rec = true -> get_prop rec k = inr (field rec k).
Proof. destruct rec; simpl; intros H; try discriminate; reflexivity. Qed.

Lemma build_license_truthy url rec w :
  truthy rec = true -> build_license url rec w = (Ret (license_of url rec), w).
Proof.
  intros H. unfold build_license, bind, lift.
  rewrite !(get_prop_truthy _ _ H). reflexivity.
Qed.

Lemma start_cases env cfg url w :
  checkLicense_start env cfg url w =
    if negb (enableTracking cfg) then (Ret (Settled (no_license url)), w)
    else match valid_entry cfg url w with
         | Some lic => (Ret (Settled lic), w)
         | None => (Ret (Awaiting (ledger_licenses env (trace w) url)),
                    log_event (EvLedgerLicenses url) w)
         end.
Proof.
  unfold checkLicense_start, valid_entry, cache_valid, bind, cache_get, date_now, send, ret.
  destruct (enableTracking cfg); simpl; [|reflexivity].
  destruct (enableCache cfg); simpl; [|reflexivity].
  destruct (licenseCache w !! url) as [c|]; simpl; [|reflexivity].
  destruct (ce_expires c >? now w); reflexivity.
Qed.

Section Finish.
Variable cfg : LedgerServiceConfig.
Variable arrive : Reply JsValue -> M JsValue.
Variables (url : string) (r : Reply JsValue) (w w1 : World).

Lemma finish_rejected e :
  arrive r w = (Throw e, w1) ->
  checkLicense_finish cfg arrive url r w = (Ret (degraded url e), w1).
Proof.
  intros H. unfold checkLicense_finish, try_catch, checkLicense_try, bind.
  rewrite H. reflexivity.
Qed.

Lemma finish_unreadable data e :
  arrive r w = (Ret data, w1) -> select_license data = inl e ->
  checkLicense_finish cfg arrive url r w = (Ret (degraded url e), w1).
Proof.
  intros H S. unfold checkLicense_finish, try_catch, checkLicense_try, bind.
  rewrite H, S. reflexivity.
Qed.

Lemma finish_empty data rec :
  arrive r w = (Ret data, w1) -> select_license data = inr rec ->
  truthy rec = false ->
  checkLicense_finish cfg arrive url r w = (Ret (no_license url), w1).
Proof.
  intros H S T. unfold checkLicense_finish, try_catch, checkLicense_try, bind.
  rewrite H, S. simpl. rewrite T. reflexivity.
Qed.

Lemma finish_record data rec :
  arrive r w = (Ret data, w1) -> select_license data = inr rec ->
  truthy rec = true ->
  checkLicense_finish cfg arrive url r w =
    (Ret (license_of url rec), stored cfg url (license_of url rec) w1).
Proof.
  intros H S T. unfold checkLicense_finish, try_catch, checkLicense_try, bind.
  rewrite H, S. simpl. rewrite T. simpl.
  rewrite (build_license_truthy _ _ _ T). unfold stored.
  destruct (enableCache cfg); reflexivity.
Qed.

End Finish.

Lemma await_rejected {A} (r : Reply A) e w :
  result r = inl e -> await r w = (Throw e, set_now (now w + elapsed r) w).
Proof. intros H. unfold await. rewrite H. reflexivity. Qed.

Lemma await_fulfilled {A} (r : Reply A) a w :
  result r = inr a -> await r w = (Ret a, set_now (now w + elapsed r) w).
Proof. intros H. unfold await. rewrite H. reflexivity. Qed.

(** [checkLicense_finish] returns, whatever arrives. *)
Lemma finish_returns cfg arrive url r w :
  exists v w', checkLicense_finish cfg arrive url r w = (Ret v, w').
Proof.
  destruct (arrive r w) as [[data|e] w1] eqn:H.
  - destruct (select_license data) as [e|rec] eqn:S.
    + eexists _, _. eapply finish_unreadable; eauto.
    + destruct (truthy rec) eqn:T.
      * eexists _, _. eapply finish_record; eauto.
      * eexists _, _. eapply finish_empty; eauto.
  - eexists _, _. eapply finish_rejected; eauto.
Qed.

Lemma checkLicense_awaiting env cfg url w r w1 :
  checkLicense_start env cfg url w = (Ret (Awaiting r), w1) ->
  checkLicense env cfg url w = checkLicense_finish cfg await url r w1.
Proof. intros H. unfold checkLicense, bind. rewrite H. reflexivity. Qed.

Lemma checkLicense_settled env cfg url w v w1 :
  checkLicense_start env cfg url w = (Ret (Settled v), w1) ->
  checkLicense env cfg url w = (Ret v, w1).
Proof. intros H. unfold checkLicense, bind. rewrite H. reflexivity. Qed.

Lemma start_returns env cfg url w :
  exists s w1, checkLicense_start env cfg url w = (Ret s, w1).
Proof.
  rewrite start_cases. destruct (negb (enableTracking cfg)); [eauto|].
  destruct (valid_entry cfg url w); eauto.
Qed.


Lemma start_awaiting env cfg url w r w1 :
  checkLicense_start env cfg url w = (Ret (Awaiting r), w1) ->
  enableTracking cfg = true /\ valid_entry cfg url w = None /\
  r = ledger_licenses env (trace w) url /\
  w1 = log_event (EvLedgerLicenses url) w.
Proof.
  rewrite start_cases. destruct (enableTracking cfg); simpl; [|discriminate].
  destruct (valid_entry cfg url w); [discriminate|].
  intros H. injection H as <- <-. auto.
Qed.

Lemma start_miss env cfg url w :
  enableTracking cfg = true -> valid_entry cfg url w = None ->
  checkLicense_start env cfg url w =
    (Ret (Awaiting (ledger_licenses env (trace w) url)),
     log_event (EvLedgerLicenses url) w).
Proof. intros T V. rewrite start_cases, T, V. reflexivity. Qed.

Lemma start_hit env cfg url w lic :
  enableTracking cfg = true -> valid_entry cfg url w = Some lic ->
  checkLicense_start env cfg url w = (Ret (Settled lic), w).
Proof. intros T V. rewrite start_cases, T, V. reflexivity. Qed.

Lemma stored_trace cfg url lic w : trace (stored cfg url lic w) = trace w.
Proof. unfold stored. destruct (enableCache cfg); reflexivity. Qed.

Lemma stored_now cfg url lic w : now (stored cfg url lic w) = now w.
Proof. unfold stored. destruct (enableCache cfg); reflexivity. Qed.

(** Resuming a lone check returns, leaves the request log as it is, and
    changes the cache by at most the verdict of a record. *)
Lemma finish_await cfg url r w :
  exists v, checkLicense_finish cfg await url r w
            = (Ret v, let w1 := set_now (now w + elapsed r) w in
                      match result r with
                      | inl _ => w1
                      | inr data =>
                          match select_license data with
                          | inl _ => w1
                          | inr rec => if truthy rec
                                       then stored cfg url (license_of url rec) w1
                                       else w1
                          end
                      end).
Proof.
  cbv zeta. destruct (result r) as [e|data] eqn:Hr.
  - eexists. apply finish_rejected. apply await_rejected. exact Hr.
  - destruct (select_license data) as [e|rec] eqn:S.
    + eexists. eapply finish_unreadable; [apply await_fulfilled; exact Hr | exact S].
    + destruct (truthy rec) eqn:T.
      * eexists. eapply finish_record; [apply await_fulfilled; exact Hr | exact S | exact T].
      * eexists. eapply finish_empty; [apply await_fulfilled; exact Hr | exact S | exact T].
Qed.

Lemma finish_await_trace cfg url r w o w' :
  checkLicense_finish cfg await url r w = (o, w') -> trace w' = trace w.
Proof.
  destruct (finish_await cfg url r w) as (v & H). rewrite H. intros E.
  injection E as _ <-. cbv zeta.
  destruct (result r) as [e|data]; [reflexivity|].
  destruct (select_license data) as [e|rec]; [reflexivity|].
  destruct (truthy rec); [|reflexivity]. now rewrite stored_trace.
Qed.

(** A call that finds no valid cache entry issues exactly one request. *)
Lemma miss_issues_one_request env cfg url w :
  enableTracking cfg = true -> valid_entry cfg url w = None ->
  exists v w', checkLicense env cfg url w = (Ret v, w') /\
               trace w' = EvLedgerLicenses url :: trace w.
Proof.
  intros T V.
  rewrite (checkLicense_awaiting _ _ _ _ _ _ (start_miss env cfg url w T V)).
  destruct (finish_await cfg url (ledger_licenses env (trace w) url)
              (log_event (EvLedgerLicenses url) w)) as (v & H).
  eexists _, _. split; [exact H|].
  now rewrite (finish_await_trace _ _ _ _ _ _ H).
Qed.

(** A call that finds a valid cache entry returns it and changes nothing. *)
Lemma hit_returns_entry env cfg url w lic :
  enableTracking cfg = true -> valid_entry cfg url w = Some lic ->
  checkLicense env cfg url w = (Ret lic, w).
Proof. intros T V. apply checkLicense_settled. now apply start_hit. Qed.

Lemma array_find_records recs :
  array_find is_ai_license (map JObj recs) =
    inr (match List.find ai_typed recs with
         | Some a => JObj a
         | None => JUndefined
         end).
Proof.
  induction recs as [|fs recs IH]; [reflexivity|].
  simpl. unfold ai_typed at 1. destruct (strict_eq_str _ _); [reflexivity|exact IH].
Qed.

Lemma records_of_array items recs :
  mapM as_record items = Some recs -> items = map JObj recs.
Proof.
  rewrite mapM_Some. induction 1 as [|x fs items recs Hx _ IH]; [reflexivity|].
  destruct x; try discriminate. injection Hx as ->. simpl. now rewrite IH.
Qed.

Lemma select_license_records data recs :
  records_of data = Some recs -> recs <> [] ->
  exists sel, spec_select recs = Some sel /\ select_license data = inr (JObj sel).
Proof.
  intros Hrec Hne. unfold select_license, spec_select.
  assert (Harr : license_array data = map JObj recs).
  { destruct data; try discriminate; simpl in *.
    - now apply records_of_array.
    - now injection Hrec as <-. }
  rewrite Harr, array_find_records.
  destruct (List.find ai_typed recs) as [a|].
  - exists a. split; reflexivity.
  - destruct recs as [|fs recs]; [congruence|]. exists fs. split; reflexivity.
Qed.


Lemma valid_entry_stored cfg url lic w w2 :
  enableCache cfg = true ->
  licenseCache w2 !! url = licenseCache (stored cfg url lic w) !! url ->
  valid_entry cfg url w2 =
    if now w + cacheTTLSeconds cfg * 1000 >? now w2 then Some lic else None.
Proof.
  intros C E. unfold valid_entry, stored in *. rewrite C in *. simpl in E.
  rewrite lookup_insert_eq in E. rewrite E. reflexivity.
Qed.

(** With a clock that does not run backwards, an entry that is missing or
    expired stays so as long as the cache keeps it. *)
Lemma valid_entry_stays_none cfg url w w2 :
  valid_entry cfg url w = None ->
  licenseCache w2 !! url = licenseCache w !! url ->
  now w <= now w2 ->
  valid_entry cfg url w2 = None.
Proof.
  unfold valid_entry. intros V E T. destruct (enableCache cfg); [|reflexivity].
  rewrite E. destruct (licenseCache w !! url) as [c|]; [|reflexivity].
  destruct (Z.gtb_spec (ce_expires c) (now w)); [discriminate|].
  destruct (Z.gtb_spec (ce_expires c) (now w2)); [lia|reflexivity].
Qed.

Lemma cache_sound_stored cfg url rec w :
  truthy rec = true -> cache_sound w ->
  cache_sound (stored cfg url (license_of url rec) w).
Proof.
  intros T S. unfold stored. destruct (enableCache cfg); [|exact S].
  intros u c. simpl. rewrite lookup_insert.
  destruct (decide (url = u)) as [->|N].
  - intros H. injection H as <-. exists rec. auto.
  - apply S.
Qed.

Lemma cache_sound_set_now t w : cache_sound w -> cache_sound (set_now t w).
Proof. intros S u c. apply S. Qed.

Lemma cache_sound_log e w : cache_sound w -> cache_sound (log_event e w).
Proof. intros S u c. apply S. Qed.

Lemma cache_sound_empty t tr : cache_sound (mkWorld t ∅ tr).
Proof. intros u c. simpl. rewrite lookup_empty. discriminate. Qed.

(** [checkLicense] on its own, path by path. *)
Lemma checkLicense_unfold env cfg url w :
  checkLicense env cfg url w =
    if negb (enableTracking cfg) then (Ret (no_license url), w)
    else match valid_entry cfg url w with
         | Some lic => (Ret lic, w)
         | None =>
             let r := ledger_licenses env (trace w) url in
             let w1 := set_now (now w + elapsed r)
                         (log_event (EvLedgerLicenses url) w) in
             match result r with
             | inl e => (Ret (degraded url e), w1)
             | inr data =>
                 match select_license data with
                 | inl e => (Ret (degraded url e), w1)
                 | inr rec =>
                     if truthy rec
                     then (Ret (license_of url rec),
                           stored cfg url (license_of url rec) w1)
                     else (Ret (no_license url), w1)
                 end
             end
         end.
Proof.
  destruct (enableTracking cfg) eqn:T; simpl.
  2:{ apply checkLicense_settled. rewrite start_cases, T. reflexivity. }
  destruct (valid_entry cfg url w) as [lic|] eqn:V.
  { now apply hit_returns_entry. }
  rewrite (checkLicense_awaiting _ _ _ _ _ _ (start_miss env cfg url w T V)).
  set (r := ledger_licenses env (trace w) url).
  set (w0 := log_event (EvLedgerLicenses url) w).
  change (now w) with (now w0).
  destruct (result r) as [e|data] eqn:Hr.
  - apply finish_rejected. apply await_rejected. exact Hr.
  - destruct (select_license data) as [e|rec] eqn:S.
    + eapply finish_unreadable; [apply await_fulfilled; exact Hr | exact S].
    + destruct (truthy rec) eqn:Tr.
      * eapply finish_record; [apply await_fulfilled; exact Hr | exact S | exact Tr].
      * eapply finish_empty; [apply await_fulfilled; exact Hr | exact S | exact Tr].
Qed.


End LedgerFacts.

Module LedgerClaims.
Import Ledger LedgerSpec LedgerFacts ExtraSpec.




(** C4. For the record [checkLicense] processes, the opt-in status gives
    the action: opt-in allows, opt-out denies, anything else is unknown;
    and [license_found] is true exactly for opt-in and opt-out. *)
Theorem checkLicense_maps_status env cfg url w r w1 data rec :
  checkLicense_start env cfg url w = (Ret (Awaiting r), w1) ->
  result r = inr data ->
  select_license data = inr rec ->
  truthy rec = true ->
  exists v w', checkLicense env cfg url w = (Ret v, w') /\
    let opt := field rec "opt_in_status" in
    (opt = JStr "opt-in" -> lic_action v = allow) /\
    (opt = JStr "opt-out" -> lic_action v = deny) /\
    (opt <> JStr "opt-in" -> opt <> JStr "opt-out" -> lic_action v = unknown) /\
    (license_found v = true <-> opt = JStr "opt-in" \/ opt = JStr "opt-out").
Proof.
  intros Hs Hr Hsel Ht. rewrite (checkLicense_awaiting _ _ _ _ _ _ Hs).
  eexists _, _. split.
  { eapply finish_record; [apply await_fulfilled; exact Hr | exact Hsel | exact Ht]. }
  cbv zeta. simpl lic_action. simpl license_found.
  generalize (field rec "opt_in_status") as opt. intros opt.
  unfold action_of, found_of, strict_eq_str.
  destruct opt as [| |b|m e0|s|l|fs]; simpl;
    try (split; [|split; [|split; [|split]]];
         [ discriminate | discriminate | reflexivity | discriminate
         | intros [H|H]; discriminate ]).
  destruct (String.eqb_spec s "opt-in") as [->|N1]; simpl.
  - repeat split; intros; try congruence; auto.
  - destruct (String.eqb_spec s "opt-out") as [->|N2].
    + repeat split; intros; try congruence; auto.
    + repeat split; intros; try congruence.
      match goal with H : _ \/ _ |- _ => destruct H; congruence end.
Qed.

Lemma checkLicense_maps_status_witness :
  exists v w', checkLicense Sample.env Sample.config "https://b.example" Sample.world1
               = (Ret v, w') /\
    lic_action v = allow /\ license_found v = true.
Proof.
  destruct (checkLicense_maps_status Sample.env Sample.config "https://b.example"
              Sample.world1
              (mkReply 20 (inr (JArr [JObj Sample.other_record; JObj Sample.ai_record])))
              (log_event (EvLedgerLicenses "https://b.example") Sample.world1)
              (JArr [JObj Sample.other_record; JObj Sample.ai_record])
              (JObj Sample.ai_record)
              eq_refl eq_refl eq_refl eq_refl)
    as (v & w' & H & Hin & _ & _ & Hfound).
  exists v, w'. split; [exact H|]. split.
  - apply Hin. reflexivity.
  - apply Hfound. left. reflexivity.
Defined.


(** C8. When the lookup returns one record or a non-empty list of records,
    [checkLicense] reports the record of the AI-license type if there is
    one (the first of them), and else the first record of the response. *)
Theorem checkLicense_selects_record env cfg url w r w1 data recs :
  checkLicense_start env cfg url w = (Ret (Awaiting r), w1) ->
  result r = inr data ->
  records_of data = Some recs ->
  recs <> [] ->
  exists sel w',
    spec_select recs = Some sel /\
    select_license data = inr (JObj sel) /\
    checkLicense env cfg url w = (Ret (license_of url (JObj sel)), w').
Proof.
  intros Hs Hr Hrec Hne.
  destruct (select_license_records data recs Hrec Hne) as (sel & Hspec & Hsel).
  exists sel. eexists. split; [exact Hspec|]. split; [exact Hsel|].
  rewrite (checkLicense_awaiting _ _ _ _ _ _ Hs).
  eapply finish_record; [apply await_fulfilled; exact Hr | exact Hsel | reflexivity].
Qed.

Lemma checkLicense_selects_record_witness :
  exists w',
    spec_select [Sample.other_record; Sample.ai_record] = Some Sample.ai_record /\
    checkLicense Sample.env Sample.config "https://b.example" Sample.world1
      = (Ret (license_of "https://b.example" (JObj Sample.ai_record)), w').
Proof.
  destruct (checkLicense_selects_record Sample.env Sample.config
              "https://b.example" Sample.world1
              (mkReply 20 (inr (JArr [JObj Sample.other_record; JObj Sample.ai_record])))
              (log_event (EvLedgerLicenses "https://b.example") Sample.world1)
              (JArr [JObj Sample.other_record; JObj Sample.ai_record])
              [Sample.other_record; Sample.ai_record]
              eq_refl eq_refl eq_refl ltac:(discriminate))
    as (sel & w' & Hspec & _ & H).
  exists w'. injection Hspec as <-. split; [reflexivity | exact H].
Defined.

(** C6. Without a ledger credential ([apiKey] absent or empty),
    [acquireLicenseToken] and [logUsage] throw the error that names the
    missing key, for every argument, and the world is as before: no
    request has been issued. *)
Theorem no_credential_fails_before_network env cfg w :
  has_key cfg = false ->
  (forall params,
     acquireLicenseToken env cfg params w
       = (Throw (missing_key "/api/v1/licenses/acquire"), w)) /\
  (forall payload,
     logUsage env cfg payload w = (Throw (missing_key "/api/v1/usage/log"), w)).
Proof.
  intros H. split; intros; unfold acquireLicenseToken, logUsage;
    rewrite H; reflexivity.
Qed.

Lemma no_credential_fails_before_network_witness :
  acquireLicenseToken Sample.env Sample.config_no_key
    (acquire_params "https://pub.example/a" (mkOptions infer private 1500 200000))
    Sample.world0
  = (Throw (mkError "Error"
       "COPYRIGHTSH_LEDGER_API_KEY is required for /api/v1/licenses/acquire"),
     Sample.world0) /\
  logUsage Sample.env Sample.config_no_key
    (mkUsage "gen-1" [mkHit "https://pub.example/a" 12]) Sample.world0
  = (Throw (mkError "Error"
       "COPYRIGHTSH_LEDGER_API_KEY is required for /api/v1/usage/log"),
     Sample.world0).
Proof.
  split;
    apply (no_credential_fails_before_network Sample.env Sample.config_no_key
             Sample.world0 eq_refl).
Defined.


(** C5, as stated, fails: with caching on, a first call whose lookup times
    out stores nothing, and a second call ten milliseconds later issues a
    new request and returns another verdict. *)
Lemma repeat_after_failure_differs :
  enableCache Sample.config = true /\
  0 <= 10 < cacheTTLSeconds Sample.config * 1000 /\
  ~ repeat_is_idempotent Sample.env Sample.config "https://a.example"
      Sample.world0 10.
Proof.
  split; [reflexivity|]. split; [simpl; lia|].
  intros [H _]. vm_compute in H. discriminate H.
Qed.

(** C5, amended.  With caching on, when a call issues a lookup whose
    response is read without an exception and selects a value that counts
    as true (a license record, or any other non-empty value), the verdict
    is stored with expiry TTL seconds after the moment of storing; while
    the cache keeps that entry, a further call before the expiry returns
    the very same verdict and leaves the world as it is (no request), and
    a call at or after the expiry issues exactly one lookup request. *)
Theorem checkLicense_repeat_within_ttl env cfg url w r w0 data rec :
  enableCache cfg = true ->
  checkLicense_start env cfg url w = (Ret (Awaiting r), w0) ->
  result r = inr data ->
  select_license data = inr rec ->
  truthy rec = true ->
  exists v w1,
    checkLicense env cfg url w = (Ret v, w1) /\
    forall w2, licenseCache w2 !! url = licenseCache w1 !! url ->
      (now w2 < now w1 + cacheTTLSeconds cfg * 1000 ->
         checkLicense env cfg url w2 = (Ret v, w2)) /\
      (now w1 + cacheTTLSeconds cfg * 1000 <= now w2 ->
         exists v' w3, checkLicense env cfg url w2 = (Ret v', w3) /\
                       trace w3 = EvLedgerLicenses url :: trace w2).
Proof.
  intros C Hs Hr Hsel Ht.
  destruct (start_awaiting _ _ _ _ _ _ Hs) as (T & _ & _ & _).
  rewrite (checkLicense_awaiting _ _ _ _ _ _ Hs).
  eexists _, _. split.
  { eapply finish_record; [apply await_fulfilled; exact Hr | exact Hsel | exact Ht]. }
  intros w2 E. rewrite stored_now.
  pose proof (valid_entry_stored _ _ _ _ _ C E) as V. split; intros Hn.
  - apply hit_returns_entry; [exact T|]. rewrite V.
    destruct (Z.gtb_spec (now (set_now (now w0 + elapsed r) w0)
                          + cacheTTLSeconds cfg * 1000) (now w2));
      [reflexivity|lia].
  - apply miss_issues_one_request; [exact T|]. rewrite V.
    destruct (Z.gtb_spec (now (set_now (now w0 + elapsed r) w0)
                          + cacheTTLSeconds cfg * 1000) (now w2));
      [lia|reflexivity].
Qed.

Lemma checkLicense_repeat_within_ttl_witness :
  exists v w1,
    checkLicense Sample.env Sample.config "https://b.example" Sample.world1
      = (Ret v, w1) /\
    checkLicense Sample.env Sample.config "https://b.example"
      (set_now (now w1 + 299999) w1) = (Ret v, set_now (now w1 + 299999) w1).
Proof.
  destruct (checkLicense_repeat_within_ttl Sample.env Sample.config
              "https://b.example" Sample.world1
              (mkReply 20 (inr (JArr [JObj Sample.other_record; JObj Sample.ai_record])))
              (log_event (EvLedgerLicenses "https://b.example") Sample.world1)
              (JArr [JObj Sample.other_record; JObj Sample.ai_record])
              (JObj Sample.ai_record)
              eq_refl eq_refl eq_refl eq_refl eq_refl)
    as (v & w1 & H & Hrep).
  exists v, w1. split; [exact H|].
  apply (Hrep (set_now (now w1 + 299999) w1)); [reflexivity|].
  simpl. lia.
Defined.

(** C9, as stated, fails: a lookup answered with status 200 and a page of
    text, which is no parsed ledger response, leaves an entry in the
    cache, and that entry holds the very verdict of an empty response. *)
Lemma unparsed_body_is_cached :
  records_of Sample.gateway_page = None /\
  exists v w',
    checkLicense Sample.gateway_env Sample.config "https://a.example" Sample.world0
      = (Ret v, w') /\
    v = no_license "https://a.example" /\
    licenseCache w' !! "https://a.example"
      = Some (mkEntry (no_license "https://a.example") 301020).
Proof. split; [reflexivity|]. eexists _, _. vm_compute. repeat split. Qed.

(** C9, amended.  The cache holds only verdicts built from a response
    value: the empty cache does, and [checkLicense] keeps it so.  A call
    changes the cache only when its lookup is fulfilled and the response
    selects a value that counts as true (a license record, or any other
    non-empty value such as text that is not JSON): the verdict built
    from that value is then stored under the URL.  A call with tracking
    disabled, and a call whose lookup fails or selects nothing, leave
    the cache as it was; and after such a lookup the next call for the
    URL, at a clock reading not before the first, issues a lookup request
    again. *)
Theorem cache_holds_only_ledger_records env cfg url w :
  (forall t tr, cache_sound (mkWorld t ∅ tr)) /\
  (forall o w', cache_sound w -> checkLicense env cfg url w = (o, w') ->
     cache_sound w') /\
  (forall o w', checkLicense env cfg url w = (o, w') ->
     licenseCache w' = licenseCache w \/
     exists r w0 data rec,
       checkLicense_start env cfg url w = (Ret (Awaiting r), w0) /\
       result r = inr data /\ select_license data = inr rec /\
       truthy rec = true /\ o = Ret (license_of url rec) /\
       licenseCache w'
         = <[url := mkEntry (license_of url rec)
                      (now w' + cacheTTLSeconds cfg * 1000)]> (licenseCache w)) /\
  (enableTracking cfg = false ->
     checkLicense env cfg url w = (Ret (no_license url), w)) /\
  (forall r w0,
     checkLicense_start env cfg url w = (Ret (Awaiting r), w0) ->
     (exists e, lookup_failed r e) \/ lookup_found_nothing r ->
     exists v w1,
       checkLicense env cfg url w = (Ret v, w1) /\
       licenseCache w1 = licenseCache w /\
       forall w2, licenseCache w2 !! url = licenseCache w1 !! url ->
         now w <= now w2 ->
         exists v' w3, checkLicense env cfg url w2 = (Ret v', w3) /\
                       trace w3 = EvLedgerLicenses url :: trace w2).
Proof.
  split; [apply cache_sound_empty|]. split; [|split; [|split]].
  - intros o w' S. destruct (start_returns env cfg url w) as (s & w0 & Hs).
    destruct s as [v|r].
    + rewrite (checkLicense_settled _ _ _ _ _ _ Hs). intros E. injection E as _ <-.
      revert Hs. rewrite start_cases.
      destruct (negb (enableTracking cfg)); [intros E; now injection E as _ <-|].
      destruct (valid_entry cfg url w); intros E; [now injection E as _ <-|discriminate].
    + rewrite (checkLicense_awaiting _ _ _ _ _ _ Hs).
      destruct (start_awaiting _ _ _ _ _ _ Hs) as (_ & _ & _ & ->).
      destruct (finish_await cfg url r (log_event (EvLedgerLicenses url) w)) as (v & H).
      rewrite H. intros E. injection E as _ <-. cbv zeta.
      assert (S1 : cache_sound (set_now (now (log_event (EvLedgerLicenses url) w)
                                         + elapsed r)
                                  (log_event (EvLedgerLicenses url) w)))
        by now apply cache_sound_set_now, cache_sound_log.
      destruct (result r) as [e|data]; [exact S1|].
      destruct (select_license data) as [e|rec]; [exact S1|].
      destruct (truthy rec) eqn:T; [|exact S1].
      now apply cache_sound_stored.
  - intros o w'. rewrite checkLicense_unfold.
    destruct (enableTracking cfg) eqn:T; simpl;
      [|intros H; injection H as _ <-; now left].
    destruct (valid_entry cfg url w) eqn:V; [intros H; injection H as _ <-; now left|].
    cbv zeta. destruct (result _) as [e|data] eqn:Hr;
      [intros H; injection H as _ <-; now left|].
    destruct (select_license data) as [e|rec] eqn:Hsel;
      [intros H; injection H as _ <-; now left|].
    destruct (truthy rec) eqn:Ht; [|intros H; injection H as _ <-; now left].
    intros H. injection H as <- <-. unfold stored.
    destruct (enableCache cfg); [|now left].
    right. eexists _, _, data, rec.
    split; [apply (start_miss env cfg url w T V)|]. auto.
  - intros T. apply checkLicense_settled. rewrite start_cases, T. reflexivity.
  - intros r w0 Hs Hbad.
    destruct (start_awaiting _ _ _ _ _ _ Hs) as (T & V & _ & ->).
    rewrite (checkLicense_awaiting _ _ _ _ _ _ Hs).
    destruct (finish_await cfg url r (log_event (EvLedgerLicenses url) w)) as (v & H).
    rewrite H. eexists _, _. split; [reflexivity|]. cbv zeta.
    assert (Hw : (match result r with
                  | inl _ => set_now (now (log_event (EvLedgerLicenses url) w) + elapsed r)
                               (log_event (EvLedgerLicenses url) w)
                  | inr data =>
                      match select_license data with
                      | inl _ => set_now (now (log_event (EvLedgerLicenses url) w) + elapsed r)
                                   (log_event (EvLedgerLicenses url) w)
                      | inr rec =>
                          if truthy rec
                          then stored cfg url (license_of url rec)
                                 (set_now (now (log_event (EvLedgerLicenses url) w) + elapsed r)
                                    (log_event (EvLedgerLicenses url) w))
                          else set_now (now (log_event (EvLedgerLicenses url) w) + elapsed r)
                                 (log_event (EvLedgerLicenses url) w)
                      end
                  end) = set_now (now w + elapsed r) (log_event (EvLedgerLicenses url) w)).
    { destruct Hbad as [(e & [Hr | (data & Hr & Hsel)]) | (data & rec & Hr & Hsel & Ht)];
        rewrite Hr; try rewrite Hsel; try rewrite Ht; reflexivity. }
    rewrite Hw. split; [reflexivity|].
    intros w2 E Hn. apply miss_issues_one_request; [exact T|].
    eapply valid_entry_stays_none; [exact V | exact E | exact Hn].
Qed.

Lemma cache_holds_only_ledger_records_witness :
  exists v w1,
    checkLicense Sample.env Sample.config "https://a.example" Sample.world0
      = (Ret v, w1) /\
    licenseCache w1 = ∅ /\
    exists v' w3,
      checkLicense Sample.env Sample.config "https://a.example" w1 = (Ret v', w3) /\
      trace w3 = EvLedgerLicenses "https://a.example" :: trace w1.
Proof.
  destruct (proj2 (proj2 (proj2 (proj2 (cache_holds_only_ledger_records Sample.env
              Sample.config "https://a.example" Sample.world0))))
              (mkReply 5000 (inl Sample.timed_out))
              (log_event (EvLedgerLicenses "https://a.example") Sample.world0)
              eq_refl
              (or_introl (ex_intro _ Sample.timed_out (or_introl eq_refl))))
    as (v & w1 & H & Hc & Hnext).
  exists v, w1. split; [exact H|]. split; [exact Hc|].
  apply Hnext; [reflexivity|].
  vm_compute in H. injection H as _ <-. vm_compute. discriminate.
Defined.

End LedgerClaims.

(** ** The fetch engine *)

Module EngineClaims.
Section Engine.

Variable env : Env.
Variable config : LedgerServiceConfig.
Variable hint_names : HintHeaders.
Variable no_response_status : Z.

Local Abbreviation step := (Engine.step env config hint_names no_response_status).
Local Abbreviation run := (Engine.run env config hint_names no_response_status).
Local Abbreviation licensedFetchText :=
  (Engine.licensedFetchText env config hint_names no_response_status).

(** [DONE] is terminal. *)
Lemma run_done n url opts r w : run n url opts (DONE r) w = (DONE r, w).
Proof. induction n as [|n IH]; simpl; [reflexivity|exact IH]. Qed.

Lemma run_add n m url opts st w :
  run (n + m) url opts st w =
    let '(st', w') := run n url opts st w in run m url opts st' w'.
Proof.
  revert st w. induction n as [|n IH]; intros st w; simpl; [reflexivity|].
  destruct (step url opts st w) as [st' w']. apply IH.
Qed.

(** Five transitions from [START] end in [DONE], with [payment_attempted]
    set exactly when the direct fetch was answered by a 402 that names
    the x402 scheme. *)
Lemma run_five url opts w :
  exists r w', run 5 url opts START w = (DONE r, w') /\
               payment_attempted r = observed_x402 env url w.
Proof.
  unfold observed_x402, first_reply. simpl.
  destruct (result (http_get env (trace w) url)) as [e|resp]; simpl.
  { eexists _, _. split; reflexivity. }
  destruct (payment_signalled resp); simpl.
  2:{ eexists _, _. split; reflexivity. }
  match goal with
  | |- context [Ledger.acquireLicenseToken ?x1 ?x2 ?x3 ?x4] =>
      destruct (Ledger.acquireLicenseToken x1 x2 x3 x4) as [[grant|e] w1]
  end; simpl.
  - match goal with
    | |- context [result ?x1] => destruct (result x1) as [e|resp2]
    end; eexists _, _; split; reflexivity.
  - eexists _, _. split; reflexivity.
Qed.

(** C1. Every invocation of the engine on a URL ends in [DONE] with one
    result, which every longer run keeps, and [payment_attempted] of that
    result is true if and only if the direct fetch got a response with
    status 402 whose [payment-required] header names the x402 scheme. *)
Theorem engine_produces_one_result url opts w :
  exists r w',
    licensedFetchText url opts w = (Some r, w') /\
    (forall n, (5 <= n)%nat -> run n url opts START w = (DONE r, w')) /\
    (payment_attempted r = true <->
       exists resp,
         result (first_reply env url w) = inr resp /\
         resp_status resp = 402 /\
         header "payment-required" (resp_headers resp) = Some "x402").
Proof.
  destruct (run_five url opts w) as (r & w' & Hrun & Hpay).
  exists r, w'. split; [|split].
  - unfold Engine.licensedFetchText. rewrite Hrun. reflexivity.
  - intros n Hn. replace n with (5 + (n - 5))%nat by lia.
    rewrite run_add, Hrun. apply run_done.
  - rewrite Hpay. unfold observed_x402, payment_signalled, declares_x402.
    destruct (result (first_reply env url w)) as [e|resp].
    { split; [discriminate|]. intros (resp & H & _). discriminate. }
    split.
    + intros H. apply andb_true_iff in H as [Hs Hx]. exists resp.
      split; [reflexivity|]. split; [now apply Z.eqb_eq|].
      destruct (header "payment-required" (resp_headers resp)) as [v|];
        [|discriminate].
      apply String.eqb_eq in Hx. now subst.
    + intros (resp' & H & Hs & Hx). injection H as <-.
      rewrite Hx, Hs. reflexivity.
Qed.

End Engine.

(** A paid fetch: the publisher asks for payment, the ledger grants a
    licensed URL, and the retried GET succeeds. *)
Example paid_fetch_sample :
  exists r w',
    Engine.licensedFetchText Sample.env Sample.config
      (mkHintHeaders "x402-price" "x402-payto" "x402-stage" "x402-distribution"
         "x402-facilitator") 0
      "https://pub.example/a" (mkOptions infer private 1500 200000) Sample.world0
      = (Some r, w') /\
    payment_attempted r = true /\ status r = 200 /\
    content_text r = Some "hello".
Proof. eexists _, _. vm_compute. repeat split. Qed.

End EngineClaims.

(** ** The handler *)

Module OrchestratorFacts.
Import Orchestrator OrchestratorSpec.

Section Handler.

Variable env : Env.
Variable config : LedgerServiceConfig.
Variable tokens : TokenEstimator.
Variable licensedFetchText :
  string -> FetchOptions -> World -> LicensedFetchResult * World.

Local Abbreviation fetch_loop := (Orchestrator.fetch_loop tokens licensedFetchText).
Local Abbreviation fetch_results := (OrchestratorSpec.fetch_results licensedFetchText).
Local Abbreviation after_fetches := (OrchestratorSpec.after_fetches licensedFetchText).
Local Abbreviation push_hit := (OrchestratorSpec.push_hit tokens).

(** The loop files every fetch under its URL and appends its hit. *)
Lemma fetch_loop_unfold opts urls fetchedByUrl hits w :
  fetch_loop opts urls fetchedByUrl hits w =
    ((foldl (fun m p => <[fst p := snd p]> m) fetchedByUrl (fetch_results opts urls w),
      foldl push_hit hits (fetch_results opts urls w)),
     after_fetches opts urls w).
Proof.
  revert fetchedByUrl hits w.
  induction urls as [|u rest IH]; intros fetchedByUrl hits w; simpl; [reflexivity|].
  destruct (licensedFetchText u opts w) as [fetched w']. simpl.
  rewrite IH. reflexivity.
Qed.

Lemma hit_of_Some u fetched h :
  hit_of tokens u fetched = Some h ->
  hit_url h = u /\ 0 < hit_tokens h /\
  exists text, content_text fetched = Some text /\ text <> "" /\
               200 <= status fetched < 300 /\
               hit_tokens h = estimate tokens text.
Proof.
  unfold hit_of. destruct (content_text fetched) as [text|]; [|discriminate].
  destruct (String.eqb_spec text "") as [->|Hne]; simpl; [discriminate|].
  destruct (Z.leb_spec 200 (status fetched)) as [H1|H1]; simpl; [|discriminate].
  destruct (Z.ltb_spec (status fetched) 300) as [H2|H2]; simpl; [|discriminate].
  destruct (Z.ltb_spec 0 (estimate tokens text)) as [H3|H3]; [|discriminate].
  intros E. injection E as <-. simpl. split; [reflexivity|]. split; [assumption|].
  exists text. repeat split; auto.
Qed.

Lemma elem_of_pushed fs : forall hits h,
  h ∈ foldl push_hit hits fs ->
  h ∈ hits \/ exists p, p ∈ fs /\ hit_of tokens (fst p) (snd p) = Some h.
Proof.
  induction fs as [|p fs IH]; intros hits h; simpl; [auto|].
  intros H. apply IH in H as [H1|(q & Hq & Hh)].
  - unfold OrchestratorSpec.push_hit in H1.
    destruct (hit_of tokens (fst p) (snd p)) as [h'|] eqn:E.
    + apply elem_of_app in H1 as [H2|H2]; [auto|].
      apply list_elem_of_singleton in H2 as ->. right. exists p. split; [left|exact E].
    + auto.
  - right. exists q. split; [now right|exact Hh].
Qed.

Lemma start_checks_returns urls w :
  exists ss w', start_checks env config urls w = (Ret ss, w').
Proof.
  revert w. induction urls as [|u rest IH]; intros w; simpl; [eauto|].
  unfold bind at 1.
  destruct (LedgerFacts.start_returns env config u w) as (s & w1 & ->).
  unfold bind at 1. destruct (IH w1) as (ss & w2 & ->). eauto.
Qed.

Lemma finish_checks_returns t0 pending : forall licenseMap w,
  exists m w', finish_checks config t0 pending licenseMap w = (Ret m, w').
Proof.
  induction pending as [|[u r] rest IH]; intros licenseMap w; simpl; [eauto|].
  unfold bind at 1.
  destruct (LedgerFacts.finish_returns config (arrive_at t0) u r w) as (v & w1 & ->).
  apply IH.
Qed.

(** The license checks of a request never throw. *)
Lemma check_licenses_returns urls w :
  exists m w', check_licenses env config urls w = (Ret m, w').
Proof.
  unfold check_licenses, bind at 1.
  destruct (start_checks_returns urls w) as (ss & w1 & ->).
  unfold bind, date_now. apply finish_checks_returns.
Qed.

Lemma record_usage_cases hits w :
  hits <> [] ->
  exists o w',
    Ledger.logUsage env config (mkUsage (randomUUID env (trace w)) hits) w = (o, w') /\
    record_usage env config hits w
      = (Ret (Some (usage_log_of o (randomUUID env (trace w)) (length hits))), w').
Proof.
  intros Hne. unfold record_usage.
  destruct hits as [|h hits]; [congruence|].
  change (0 <? length (h :: hits))%nat with true. cbv iota.
  unfold bind, random_uuid, try_catch, ret. cbv beta iota.
  destruct (Ledger.logUsage env config _ w) as [[u|e] w'];
    eexists _, _; (split; [reflexivity|]); reflexivity.
Qed.

(** [logUsage] issues at most its one POST. *)
Lemma logUsage_trace payload w o w' :
  Ledger.logUsage env config payload w = (o, w') ->
  trace w' = trace w \/ trace w' = EvLedgerUsage payload :: trace w.
Proof.
  unfold Ledger.logUsage. destruct (negb (Ledger.has_key config)).
  - intros H. injection H as _ <-. now left.
  - unfold bind, send, await. simpl. intros H. injection H as _ <-. now right.
Qed.

(** Results without a usable URL are not among the URLs checked and
    fetched, and none of them gets a [license]. *)
Lemma no_url_not_listed rs u :
  u ∈ result_urls rs -> u <> "" /\ exists r, r ∈ rs /\ res_url r = Some u.
Proof.
  unfold result_urls. rewrite list_elem_of_omap.
  intros (o & Ho & Hk).
  apply list_elem_of_In, in_map_iff in Ho as (r & <- & Hr).
  apply list_elem_of_In in Hr.
  unfold keep_url in Hk. destruct (res_url r) as [s|] eqn:E; [|discriminate].
  destruct (String.eqb_spec s ""); [discriminate|]. injection Hk as <-.
  split; [assumption|]. exists r. auto.
Qed.


Lemma start_checks_urls urls : forall w ss w',
  start_checks env config urls w = (Ret ss, w') -> map fst ss = urls.
Proof.
  induction urls as [|u rest IH]; intros w ss w'; simpl.
  - intros H. injection H as <- _. reflexivity.
  - unfold bind at 1.
    destruct (LedgerFacts.start_returns env config u w) as (s & w1 & ->).
    unfold bind at 1. destruct (start_checks env config rest w1) as [[ss'|e] w2] eqn:E;
      [|discriminate].
    intros H. injection H as <- _. simpl. f_equal. eapply IH. exact E.
Qed.

Lemma set_all_keys vs : forall (m : gmap string LedgerLicenseInfo) k,
  is_Some (set_all m vs !! k) -> is_Some (m !! k) \/ k ∈ map fst vs.
Proof.
  unfold set_all. induction vs as [|[u v] vs IH]; intros m k; simpl; [auto|].
  intros H. apply IH in H as [H1|H1].
  - rewrite lookup_insert in H1. destruct (decide (u = k)) as [->|N].
    + right. left.
    + auto.
  - right. now right.
Qed.

Lemma finish_checks_keys t0 pending : forall licenseMap w m w' k,
  finish_checks config t0 pending licenseMap w = (Ret m, w') ->
  is_Some (m !! k) -> is_Some (licenseMap !! k) \/ k ∈ map fst pending.
Proof.
  induction pending as [|[u r] rest IH]; intros licenseMap w m w' k; simpl.
  - intros H. injection H as <- _. auto.
  - unfold bind at 1.
    destruct (LedgerFacts.finish_returns config (arrive_at t0) u r w) as (v & w1 & ->).
    intros H Hk. destruct (IH _ _ _ _ _ H Hk) as [H1|H1].
    + rewrite lookup_insert in H1. destruct (decide (u = k)) as [->|N].
      * right. left.
      * auto.
    + right. now right.
Qed.

Lemma fst_of_omap {A B} (f : string * A -> option (string * B)) ss k :
  (forall p q, f p = Some q -> fst q = fst p) ->
  k ∈ map fst (omap f ss) -> k ∈ map fst ss.
Proof.
  intros Hf H. apply list_elem_of_In, in_map_iff in H as (q & <- & Hq).
  apply list_elem_of_In, list_elem_of_omap in Hq as (p & Hp & Hfp).
  rewrite (Hf _ _ Hfp). apply list_elem_of_In, in_map, list_elem_of_In, Hp.
Qed.

(** Only the URLs handed to the license checks get a verdict. *)
Lemma check_licenses_keys urls w m w' k :
  check_licenses env config urls w = (Ret m, w') ->
  is_Some (m !! k) -> k ∈ urls.
Proof.
  unfold check_licenses, bind at 1.
  destruct (start_checks env config urls w) as [[ss|e] w1] eqn:E; [|discriminate].
  apply start_checks_urls in E as <-.
  unfold bind, date_now. intros H Hk.
  destruct (finish_checks_keys _ _ _ _ _ _ _ H Hk) as [H1|H1].
  - apply set_all_keys in H1 as [H2|H2].
    + rewrite lookup_empty in H2. destruct H2; discriminate.
    + eapply fst_of_omap; [|exact H2].
      intros [u s] q. unfold settled_of. simpl. destruct s; [|discriminate].
      intros Hq. now injection Hq as <-.
  - apply list_elem_of_In, in_map_iff in H1 as (q & <- & Hq).
    apply list_elem_of_In in Hq. rewrite merge_sort_Permutation in Hq.
    eapply fst_of_omap; [|apply list_elem_of_In, in_map, list_elem_of_In, Hq].
    intros [u s] q'. unfold pending_of. simpl. destruct s; [discriminate|].
    intros Hq'. now injection Hq' as <-.
Qed.

Lemma fetch_results_urls opts urls : forall w,
  map fst (fetch_results opts urls w) = urls.
Proof.
  induction urls as [|u rest IH]; intros w; simpl; [reflexivity|].
  destruct (licensedFetchText u opts w) as [fetched w1]. simpl. now rewrite IH.
Qed.

Lemma filed_keys (fs : list (string * LicensedFetchResult)) :
  forall (m : gmap string LicensedFetchResult) k,
  is_Some (foldl (fun acc p => <[fst p := snd p]> acc) m fs !! k) ->
  is_Some (m !! k) \/ k ∈ map fst fs.
Proof.
  induction fs as [|[u v] fs IH]; intros m k; simpl; [auto|].
  intros H. apply IH in H as [H1|H1].
  - rewrite lookup_insert in H1. destruct (decide (u = k)) as [->|N].
    + right. left.
    + auto.
  - right. now right.
Qed.

(** Only fetched URLs are filed in [fetchedByUrl]. *)
Lemma fetch_loop_keys opts urls w fetchedByUrl hits w' k :
  fetch_loop opts urls ∅ [] w = ((fetchedByUrl, hits), w') ->
  is_Some (fetchedByUrl !! k) -> k ∈ urls.
Proof.
  rewrite fetch_loop_unfold. intros H. injection H as <- _ _. intros Hk.
  apply filed_keys in Hk as [Hk|Hk].
  - rewrite lookup_empty in Hk. destruct Hk; discriminate.
  - now rewrite fetch_results_urls in Hk.
Qed.

Lemma record_usage_returns hits w :
  exists ul w', record_usage env config hits w = (Ret ul, w').
Proof.
  destruct hits as [|h hits]; [eexists _, _; reflexivity|].
  destruct (record_usage_cases (h :: hits) w) as (o & w' & _ & H); [discriminate|].
  eauto.
Qed.

(** What the handler returns once the search has answered: one entry per
    search result, in order.  An entry whose result has no usable URL has
    no [license]; it has no [fetched] either when its [url] is the empty
    string, or is missing while no result has the URL "undefined". *)
Lemma entries_follow_results args w resp wa :
  a_query args <> "" ->
  Exa.search env (search_request args) w = (Ret resp, wa) ->
  exists body w',
    call_tool env config tokens licensedFetchText "copyrightish-exa-search" args w
      = (Ret body, w') /\
    map en_result (rb_results body) = default [] (results resp) /\
    forall e, e ∈ rb_results body -> no_url (en_result e) ->
      en_license e = None /\
      (res_url (en_result e) = Some ""
       \/ "undefined" ∉ result_urls (default [] (results resp)) ->
       en_fetched e = None).
Proof.
  intros Hq Hsearch. unfold call_tool.
  change (negb ("copyrightish-exa-search" =? "copyrightish-exa-search")) with false.
  cbv iota. apply String.eqb_neq in Hq. rewrite Hq.
  unfold bind at 1. rewrite Hsearch. set (rs := default [] (results resp)).
  unfold bind at 1.
  destruct (check_licenses_returns (result_urls rs) wa) as (lm & wb & Hlic).
  rewrite Hlic. unfold bind at 1.
  assert (Hfl : exists fb ul w',
            fetch_and_log env config tokens licensedFetchText args (result_urls rs) wb
              = (Ret (fb, ul), w') /\
            forall m k, fb = Some m -> is_Some (m !! k) -> k ∈ result_urls rs).
  { unfold fetch_and_log. destruct (a_fetch args).
    - unfold bind at 1.
      destruct (fetch_loop (fetch_options args) (result_urls rs) ∅ [] wb)
        as [[fb hs] w1] eqn:Hloop.
      unfold bind at 1. simpl snd.
      destruct (record_usage_returns hs w1) as (ul & w2 & ->).
      eexists _, _, _. split; [reflexivity|]. simpl.
      intros m k Hm Hk. injection Hm as <-. eapply fetch_loop_keys; eauto.
    - eexists _, _, _. split; [reflexivity|]. intros m k Hm. discriminate. }
  destruct Hfl as (fb & ul & w' & -> & Hkeys).
  eexists _, _. split; [reflexivity|]. simpl. split.
  { rewrite map_map. simpl. apply map_id. }
  intros e He Hno. apply list_elem_of_In, in_map_iff in He as (r & <- & Hr).
  simpl in *. split.
  - destruct Hno as [->| ->]; [reflexivity|]. simpl.
    destruct (lm !! "") eqn:El; [|reflexivity].
    assert (Hin : "" ∈ result_urls rs)
      by (eapply check_licenses_keys; [exact Hlic | rewrite El; eauto]).
    apply no_url_not_listed in Hin as [Hin _]. congruence.
  - intros Hcase. destruct fb as [m|]; [|reflexivity].
    destruct (m !! property_key (res_url r)) eqn:Em; [|reflexivity].
    assert (Hin : property_key (res_url r) ∈ result_urls rs)
      by (eapply Hkeys; [reflexivity | rewrite Em; eauto]).
    destruct Hno as [Hu|Hu]; rewrite Hu in *; simpl in Hin.
    + destruct Hcase as [Hc|Hc]; [discriminate|contradiction].
    + apply no_url_not_listed in Hin as [Hin _]. congruence.
Qed.

End Handler.
End OrchestratorFacts.

Module OrchestratorClaims.
Import Orchestrator OrchestratorSpec OrchestratorFacts.

(** C3. Every hit of the usage batch of a request has a positive token
    count and belongs to a fetch of the loop, for the hit's URL, whose
    result has a non-empty [content_text] and a status from 200 up to,
    not including, 300; the count is the estimate of that text. *)
Theorem usage_batch_hits_are_successful_fetches
    env tokens licensedFetchText opts urls w h :
  h ∈ hits (usage_batch env tokens licensedFetchText opts urls w) ->
  0 < hit_tokens h /\
  exists fetched text,
    (hit_url h, fetched) ∈ fetch_results licensedFetchText opts urls w /\
    content_text fetched = Some text /\ text <> "" /\
    200 <= status fetched < 300 /\
    hit_tokens h = estimate tokens text.
Proof.
  unfold usage_batch. rewrite fetch_loop_unfold. simpl.
  intros H. apply elem_of_pushed in H as [H|([u fetched] & Hp & Hh)].
  { apply elem_of_nil in H. contradiction. }
  simpl in Hh. apply hit_of_Some in Hh as (<- & Hpos & text & Hc & Hne & Hst & Ht).
  split; [exact Hpos|]. exists fetched, text. auto.
Qed.

Lemma usage_batch_hits_are_successful_fetches_witness :
  0 < 2 /\
  exists fetched text,
    ("https://x.example", fetched)
      ∈ fetch_results Sample.fetcher (mkOptions infer private 1500 200000)
          ["https://x.example"] Sample.world0 /\
    content_text fetched = Some text /\ text <> "" /\
    200 <= status fetched < 300 /\
    2 = estimate Sample.tokens text.
Proof.
  apply (usage_batch_hits_are_successful_fetches Sample.env Sample.tokens
           Sample.fetcher (mkOptions infer private 1500 200000)
           ["https://x.example"] Sample.world0 (mkHit "https://x.example" 2)).
  vm_compute. constructor.
Defined.

(** C7. When the search has answered, the licenses are checked and the
    fetch loop has collected at least one hit, the handler calls
    [logUsage] once, with the batch of those hits: the world it ends in
    is the world after that one call, which issued at most its one POST.
    The handler returns the response body with one entry per search
    result whatever that call did; when the call threw, [usage_log] holds
    [ok] false with the error text, and when it returned, [ok] true. *)
Theorem usage_log_failure_is_surfaced
    env config tokens licensedFetchText args w resp wa licenseMap wb
    fetchedByUrl hs w1 :
  a_query args <> "" ->
  a_fetch args = true ->
  Exa.search env (search_request args) w = (Ret resp, wa) ->
  check_licenses env config (result_urls (default [] (results resp))) wa
    = (Ret licenseMap, wb) ->
  fetch_loop tokens licensedFetchText (fetch_options args)
    (result_urls (default [] (results resp))) ∅ [] wb
    = ((fetchedByUrl, hs), w1) ->
  hs <> [] ->
  let batch := mkUsage (randomUUID env (trace w1)) hs in
  exists o w2,
    Ledger.logUsage env config batch w1 = (o, w2) /\
    (trace w2 = trace w1 \/ trace w2 = EvLedgerUsage batch :: trace w1) /\
    exists body,
      call_tool env config tokens licensedFetchText "copyrightish-exa-search" args w
        = (Ret body, w2) /\
      rb_results body
        = map (enrich licenseMap (Some fetchedByUrl)) (default [] (results resp)) /\
      (forall e, o = Throw e ->
         rb_usage_log body
           = Some (mkUsageLog false (Some (error_text e)) (gen_id batch) (length hs))) /\
      (forall u, o = Ret u ->
         rb_usage_log body = Some (mkUsageLog true None (gen_id batch) (length hs))).
Proof.
  intros Hq Hf Hsearch Hlic Hloop Hne batch.
  destruct (record_usage_cases env config hs w1 Hne) as (o & w2 & Hlog & Hrec).
  exists o, w2. split; [exact Hlog|]. split; [eapply logUsage_trace; exact Hlog|].
  unfold call_tool. change (negb ("copyrightish-exa-search" =? "copyrightish-exa-search")) with false.
  cbv iota. apply String.eqb_neq in Hq. rewrite Hq.
  unfold bind at 1. rewrite Hsearch.
  unfold bind at 1. rewrite Hlic.
  unfold bind at 1. unfold fetch_and_log. rewrite Hf.
  unfold bind at 1. rewrite Hloop. cbv beta iota.
  unfold bind at 1. simpl snd. rewrite Hrec.
  eexists. split; [reflexivity|]. simpl. split; [reflexivity|].
  split; intros ? ->; reflexivity.
Qed.

Lemma usage_log_failure_is_surfaced_witness :
  exists body w2,
    call_tool Sample.env Sample.config Sample.tokens Sample.fetcher
      "copyrightish-exa-search" Sample.args Sample.world0 = (Ret body, w2) /\
    length (rb_results body) = 3%nat /\
    rb_usage_log body
      = Some (mkUsageLog false (Some "Request failed with status code 500")
                "gen-1" 1).
Proof.
  edestruct (usage_log_failure_is_surfaced Sample.env Sample.config Sample.tokens
               Sample.fetcher Sample.args Sample.world0)
    as (o & w2 & Hlog & _ & body & Hcall & Hres & Hfail & _).
  - discriminate.
  - reflexivity.
  - vm_compute. reflexivity.
  - vm_compute. reflexivity.
  - vm_compute. reflexivity.
  - discriminate.
  - exists body, w2. split; [exact Hcall|]. split.
    + rewrite Hres. reflexivity.
    + vm_compute in Hlog. injection Hlog as <- _. apply (Hfail _ eq_refl).
Defined.

(** C10 at the input where it fails: of the three search results, the
    first has no [url] and the second has the URL spelled "undefined".
    With [fetch] on, the entry of the first result carries a [fetched]
    field, the fetch result of the second. *)
Lemma result_without_url_reports_fetched :
  exists body w',
    call_tool Sample.env Sample.config Sample.tokens Sample.fetcher
      "copyrightish-exa-search" Sample.args Sample.world0 = (Ret body, w') /\
    map en_result (rb_results body)
      = [mkResult None []; mkResult (Some "undefined") []; mkResult (Some "") []] /\
    (en_fetched <$> rb_results body !! 0%nat)
      = Some (Some (mkFetchResult "undefined" "undefined" 200 (Some "text/html")
                      (Some "hello") false false None None None)).
Proof. eexists _, _. vm_compute. repeat split. Qed.

End OrchestratorClaims.

(** * Further properties of the ledger client *)

Module LedgerMore.
Import Ledger LedgerSpec LedgerFacts ExtraSpec.

Lemma valid_entry_no_cache cfg url w :
  enableCache cfg = false -> valid_entry cfg url w = None.
Proof. unfold valid_entry. now intros ->. Qed.

Lemma stored_no_cache cfg url lic w :
  enableCache cfg = false -> stored cfg url lic w = w.
Proof. unfold stored. now intros ->. Qed.

(** With caching off, every call with tracking on issues its one lookup
    request, whatever the cache holds, and leaves the cache as it is. *)
Theorem uncached_call_always_looks_up env cfg url w :
  enableTracking cfg = true ->
  enableCache cfg = false ->
  exists v w',
    checkLicense env cfg url w = (Ret v, w') /\
    trace w' = EvLedgerLicenses url :: trace w /\
    licenseCache w' = licenseCache w.
Proof.
  intros T C. rewrite checkLicense_unfold, T, (valid_entry_no_cache _ _ _ C).
  simpl. destruct (result _) as [e|data]; [eauto|].
  destruct (select_license data) as [e|rec]; [eauto|].
  destruct (truthy rec); [|eauto].
  rewrite (stored_no_cache _ _ _ _ C). eauto.
Qed.

Lemma uncached_call_always_looks_up_witness :
  exists v w',
    checkLicense Sample.env
      (mkConfig "https://ledger.copyright.sh" (Some "key") true false 300 5000 8000 3000)
      "https://b.example" Sample.world1 = (Ret v, w') /\
    trace w' = EvLedgerLicenses "https://b.example" :: trace Sample.world1 /\
    licenseCache w' = licenseCache Sample.world1.
Proof.
  apply (uncached_call_always_looks_up Sample.env
           (mkConfig "https://ledger.copyright.sh" (Some "key") true false 300 5000 8000 3000)
           "https://b.example" Sample.world1 eq_refl eq_refl).
Defined.

(** A call for one URL leaves the cache entries of all other URLs alone,
    and changes the entry of its own URL only by storing the verdict it
    returns, expiring TTL seconds after the moment the call ends. *)
Theorem checkLicense_touches_only_its_entry env cfg url w o w' :
  checkLicense env cfg url w = (o, w') ->
  (forall u, u <> url -> licenseCache w' !! u = licenseCache w !! u) /\
  (licenseCache w' !! url = licenseCache w !! url \/
   exists v, o = Ret v /\
     licenseCache w' !! url
       = Some (mkEntry v (now w' + cacheTTLSeconds cfg * 1000))).
Proof.
  rewrite checkLicense_unfold.
  destruct (negb (enableTracking cfg)).
  { intros H. injection H as _ <-. auto. }
  destruct (valid_entry cfg url w).
  { intros H. injection H as _ <-. auto. }
  cbv zeta. destruct (result _) as [e|data].
  { intros H. injection H as _ <-. auto. }
  destruct (select_license data) as [e|rec].
  { intros H. injection H as _ <-. auto. }
  destruct (truthy rec).
  2:{ intros H. injection H as _ <-. auto. }
  intros H. injection H as <- <-. unfold stored.
  destruct (enableCache cfg); [|auto]. simpl. split.
  - intros u Hu. now rewrite lookup_insert_ne.
  - right. eexists. split; [reflexivity|]. now rewrite lookup_insert_eq.
Qed.

Lemma checkLicense_touches_only_its_entry_witness :
  exists o w',
    checkLicense Sample.env Sample.config "https://b.example" Sample.world1 = (o, w') /\
    licenseCache w' !! "https://a.example" = None /\
    exists v, licenseCache w' !! "https://b.example" = Some (mkEntry v 307020).
Proof.
  destruct (checkLicense Sample.env Sample.config "https://b.example" Sample.world1)
    as [o w'] eqn:E.
  exists o, w'. split; [reflexivity|].
  destruct (checkLicense_touches_only_its_entry _ _ _ _ _ _ E) as [Hother Hown].
  split.
  - rewrite Hother; [reflexivity | discriminate].
  - vm_compute in E. injection E as <- <-. eexists. vm_compute. reflexivity.
Defined.

(** The verdicts [checkLicense] can return. *)
Lemma verdict_shapes env cfg url w v w' :
  cache_sound w ->
  checkLicense env cfg url w = (Ret v, w') ->
  v = no_license url \/ (exists e, v = degraded url e) \/
  (exists rec, truthy rec = true /\ v = license_of url rec).
Proof.
  intros S. rewrite checkLicense_unfold.
  destruct (negb (enableTracking cfg)).
  { intros H. injection H as <- _. auto. }
  destruct (valid_entry cfg url w) as [lic|] eqn:V.
  - intros H. injection H as <- _. right. right.
    unfold valid_entry in V. destruct (enableCache cfg); [|discriminate].
    destruct (licenseCache w !! url) as [c|] eqn:L; [|discriminate].
    destruct (ce_expires c >? now w); [|discriminate].
    injection V as <-. destruct (S _ _ L) as (rec & T & ->). eauto.
  - cbv zeta.
    destruct (result _) as [e|data]; [intros H; injection H as <- _; eauto|].
    destruct (select_license data) as [e|rec]; [intros H; injection H as <- _; eauto|].
    destruct (truthy rec) eqn:T; intros H; injection H as <- _; eauto.
Qed.

Lemma found_iff_action opt :
  found_of opt = true <-> action_of opt <> unknown.
Proof.
  unfold found_of, action_of.
  destruct (strict_eq_str opt "opt-in"); simpl; [split; [discriminate|auto]|].
  destruct (strict_eq_str opt "opt-out"); simpl; split; auto; try discriminate.
Qed.

(** Whatever path a call takes from a cache that holds only verdicts of
    records, its verdict names the URL asked for, reports a license as
    found exactly when its action is allow or deny, and carries no
    signature. *)
Theorem verdict_is_consistent env cfg url w v w' :
  cache_sound w ->
  checkLicense env cfg url w = (Ret v, w') ->
  lic_url v = url /\
  (license_found v = true <-> lic_action v <> unknown) /\
  lic_license_sig v = None.
Proof.
  intros S H.
  destruct (verdict_shapes _ _ _ _ _ _ S H) as [->|[(e & ->)|(rec & _ & ->)]];
    simpl; (split; [reflexivity|]); (split; [|reflexivity]);
    try (split; [discriminate|congruence]).
  apply found_iff_action.
Qed.

Lemma verdict_is_consistent_witness :
  exists v w',
    checkLicense Sample.env Sample.config "https://b.example" Sample.world1 = (Ret v, w') /\
    lic_url v = "https://b.example" /\
    (license_found v = true <-> lic_action v <> unknown).
Proof.
  destruct (checkLicense Sample.env Sample.config "https://b.example" Sample.world1)
    as [o w'] eqn:E.
  assert (Ho : exists v, o = Ret v) by (vm_compute in E; injection E as <- _; eauto).
  destruct Ho as (v & ->). exists v, w'. split; [reflexivity|].
  destruct (verdict_is_consistent Sample.env Sample.config "https://b.example"
              Sample.world1 v w' (cache_sound_empty _ _) E) as (Hu & Hf & _).
  split; assumption.
Defined.


(** A verdict carries an error exactly when the call issued a lookup and
    that lookup failed; the text is [e?.message || String(e)] of the
    failure.  Verdicts served from the cache never carry one. *)
Theorem error_reports_failed_lookup env cfg url w v w' msg :
  cache_sound w ->
  checkLicense env cfg url w = (Ret v, w') ->
  (lic_error v = Some msg <->
   exists r w0 e,
     checkLicense_start env cfg url w = (Ret (Awaiting r), w0) /\
     lookup_failed r e /\ msg = error_text e).
Proof.
  intros S H. pose proof (verdict_shapes _ _ _ _ _ _ S H) as Hshape.
  revert H. rewrite checkLicense_unfold, start_cases.
  destruct (negb (enableTracking cfg)).
  { intros H. injection H as <- _. split; [discriminate|].
    intros (r & w0 & e & Hs & _). discriminate. }
  destruct (valid_entry cfg url w) as [lic|] eqn:V.
  { intros H. injection H as <- _. split.
    - destruct Hshape as [->|[(e & ->)|(rec & _ & ->)]]; try discriminate.
      (* a degraded verdict is never a cache entry *)
      exfalso. unfold valid_entry in V. destruct (enableCache cfg); [|discriminate].
      destruct (licenseCache w !! url) as [c|] eqn:L; [|discriminate].
      destruct (ce_expires c >? now w); [|discriminate].
      injection V as V. destruct (S _ _ L) as (rec & _ & Hc).
      rewrite V in Hc. discriminate.
    - intros (r & w0 & e & Hs & _). discriminate. }
  cbv zeta. set (r := ledger_licenses env (trace w) url).
  destruct (result r) as [e|data] eqn:Hr.
  { intros H. injection H as <- _. simpl. split.
    - intros E. injection E as <-. exists r. eexists _, e.
      split; [reflexivity|]. split; [now left|reflexivity].
    - intros (r' & w0 & e' & Hs & Hf & ->). injection Hs as <- _.
      destruct Hf as [Hf|(d & Hf & _)]; fold r in Hf; rewrite Hr in Hf;
        [now injection Hf as <- | discriminate]. }
  destruct (select_license data) as [e|rec] eqn:Hsel.
  { intros H. injection H as <- _. simpl. split.
    - intros E. injection E as <-. exists r. eexists _, e.
      split; [reflexivity|]. split; [|reflexivity]. right. eauto.
    - intros (r' & w0 & e' & Hs & Hf & ->). injection Hs as <- _.
      destruct Hf as [Hf|(d & Hf & Hd)]; fold r in Hf; rewrite Hr in Hf;
        [discriminate|]. injection Hf as <-. rewrite Hsel in Hd.
      now injection Hd as <-. }
  assert (Hnone : forall v0 : LedgerLicenseInfo,
             lic_error v0 = None ->
             (lic_error v0 = Some msg <->
              exists r' w0 e,
                (Ret (Awaiting r), log_event (EvLedgerLicenses url) w)
                  = (Ret (Awaiting r'), w0) /\
                lookup_failed r' e /\ msg = error_text e)).
  { intros v0 Hn. rewrite Hn. split; [discriminate|].
    intros (r' & w0 & e' & Hs & Hf & ->). injection Hs as <- _.
    destruct Hf as [Hf|(d & Hf & Hd)]; rewrite Hr in Hf; [discriminate|].
    injection Hf as <-. rewrite Hsel in Hd. discriminate. }
  destruct (truthy rec); intros H; injection H as <- _; now apply Hnone.
Qed.

Lemma error_reports_failed_lookup_witness :
  exists v w',
    checkLicense Sample.env Sample.config "https://a.example" Sample.world0
      = (Ret v, w') /\
    lic_error v = Some "timeout of 5000ms exceeded".
Proof.
  destruct (checkLicense Sample.env Sample.config "https://a.example" Sample.world0)
    as [o w'] eqn:E.
  assert (Ho : exists v, o = Ret v) by (vm_compute in E; injection E as <- _; eauto).
  destruct Ho as (v & ->). exists v, w'. split; [reflexivity|].
  apply (error_reports_failed_lookup Sample.env Sample.config "https://a.example"
           Sample.world0 v w' _ (cache_sound_empty _ _) E).
  exists (mkReply 5000 (inl Sample.timed_out)).
  eexists _, Sample.timed_out. split; [reflexivity|]. split; [now left|reflexivity].
Defined.

(** A call either changes nothing at all, or issues exactly one request,
    the lookup of its URL, and moves the clock by the time the reply
    took; it never issues a request of another kind. *)
Theorem checkLicense_footprint env cfg url w o w' :
  checkLicense env cfg url w = (o, w') ->
  w' = w \/
  (trace w' = EvLedgerLicenses url :: trace w /\
   now w' = now w + elapsed (ledger_licenses env (trace w) url)).
Proof.
  rewrite checkLicense_unfold.
  destruct (negb (enableTracking cfg)); [intros H; injection H as _ <-; auto|].
  destruct (valid_entry cfg url w); [intros H; injection H as _ <-; auto|].
  cbv zeta. intros H. right. revert H.
  destruct (result _) as [e|data]; [intros H; injection H as _ <-; auto|].
  destruct (select_license data) as [e|rec]; [intros H; injection H as _ <-; auto|].
  destruct (truthy rec); intros H; injection H as _ <-; auto.
  now rewrite stored_trace, stored_now.
Qed.

Lemma checkLicense_footprint_witness :
  exists o w',
    checkLicense Sample.env Sample.config "https://b.example" Sample.world1 = (o, w') /\
    trace w' = [EvLedgerLicenses "https://b.example"; EvLedgerLicenses "https://a.example"] /\
    now w' = 7020.
Proof.
  destruct (checkLicense Sample.env Sample.config "https://b.example" Sample.world1)
    as [o w'] eqn:E.
  exists o, w'. split; [reflexivity|].
  destruct (checkLicense_footprint _ _ _ _ _ _ E) as [->|[Ht Hn]].
  - vm_compute in E. discriminate E.
  - split; [exact Ht | exact Hn].
Defined.

Lemma is_ai_license_cases y :
  is_ai_license y =
    if nullish y then inl (type_error (nullish_name y) "license_type")
    else inr (ai_licensed y).
Proof. destruct y; reflexivity. Qed.

Lemma array_find_throws l e :
  array_find is_ai_license l = inl e <->
  exists pre x post,
    l = (pre ++ x :: post)%list /\
    Forall (fun y => nullish y = false /\ ai_licensed y = false) pre /\
    nullish x = true /\ e = type_error (nullish_name x) "license_type".
Proof.
  induction l as [|y l IH]; simpl.
  - split; [discriminate|]. intros (pre & x & post & H & _).
    destruct pre; discriminate.
  - rewrite is_ai_license_cases. destruct (nullish y) eqn:N.
    + split.
      * intros H. injection H as <-. exists [], y, l. auto.
      * intros (pre & x & post & H & Hpre & Hx & ->).
        destruct pre as [|p pre]; simpl in H; injection H as -> ->; [reflexivity|].
        apply Forall_cons in Hpre as [[Hp _] _]. congruence.
    + destruct (ai_licensed y) eqn:A.
      * split; [discriminate|].
        intros (pre & x & post & H & Hpre & Hx & _).
        destruct pre as [|p pre]; simpl in H; injection H as -> ->; [congruence|].
        apply Forall_cons in Hpre as [[_ Hp] _]. congruence.
      * rewrite IH. split.
        -- intros (pre & x & post & -> & Hpre & Hx & ->).
           exists (y :: pre), x, post. repeat split; auto.
        -- intros (pre & x & post & H & Hpre & Hx & ->).
           destruct pre as [|p pre]; simpl in H; injection H as -> ->; [congruence|].
           apply Forall_cons in Hpre as [_ Hpre]. exists pre, x, post. auto.
Qed.

(** Reading a response throws exactly when the list of records (or the
    lone value) has a [null] or [undefined] element that no record of the
    AI-license type precedes: such a response degrades to the error
    verdict even if a usable record follows. *)
Theorem select_license_throws_iff data e :
  select_license data = inl e <->
  exists pre x post,
    license_array data = (pre ++ x :: post)%list /\
    Forall (fun y => nullish y = false /\ ai_licensed y = false) pre /\
    nullish x = true /\ e = type_error (nullish_name x) "license_type".
Proof.
  rewrite <- array_find_throws. unfold select_license.
  destruct (array_find is_ai_license (license_array data)); split;
    congruence.
Qed.

(** A response body that is a bare [true], non-zero number or non-empty
    string is taken for a record: the verdict is "not found, unknown"
    without an error, and with caching on it is stored for the TTL. *)
Theorem plain_response_is_stored_as_unknown env cfg url w r w0 data :
  checkLicense_start env cfg url w = (Ret (Awaiting r), w0) ->
  result r = inr data ->
  plain_value data = true ->
  exists w',
    checkLicense env cfg url w = (Ret (no_license url), w') /\
    (enableCache cfg = true ->
     licenseCache w' !! url
       = Some (mkEntry (no_license url) (now w' + cacheTTLSeconds cfg * 1000))).
Proof.
  intros Hs Hr Hp.
  destruct (start_awaiting _ _ _ _ _ _ Hs) as (T & V & -> & ->).
  rewrite checkLicense_unfold, T, V. cbv zeta. simpl negb. cbv iota.
  rewrite Hr.
  assert (Hsel : select_license data = inr data /\ truthy data = true
                 /\ license_of url data = no_license url).
  { destruct data; try discriminate; simpl in Hp; unfold select_license; simpl;
      rewrite Hp; auto. }
  destruct Hsel as (-> & -> & ->). eexists. split; [reflexivity|].
  intros C. unfold stored. rewrite C. simpl. now rewrite lookup_insert_eq.
Qed.

Lemma plain_response_is_stored_as_unknown_witness :
  exists w',
    checkLicense
      (mkEnv (fun _ _ => mkReply 20 (inr (JStr "<html>Bad gateway</html>")))
         (ledger_acquire Sample.env) (ledger_usage Sample.env)
         (exa_search Sample.env) (http_get Sample.env) (randomUUID Sample.env))
      Sample.config "https://a.example" Sample.world0
    = (Ret (no_license "https://a.example"), w') /\
    licenseCache w' !! "https://a.example"
      = Some (mkEntry (no_license "https://a.example") 301020).
Proof.
  destruct (plain_response_is_stored_as_unknown
              (mkEnv (fun _ _ => mkReply 20 (inr (JStr "<html>Bad gateway</html>")))
                 (ledger_acquire Sample.env) (ledger_usage Sample.env)
                 (exa_search Sample.env) (http_get Sample.env) (randomUUID Sample.env))
              Sample.config "https://a.example" Sample.world0 _ _
              (JStr "<html>Bad gateway</html>") eq_refl eq_refl eq_refl)
    as (w' & H & Hc).
  exists w'. split; [exact H|]. rewrite (Hc eq_refl).
  vm_compute in H. injection H as <-. reflexivity.
Defined.

End LedgerMore.

(** * Further properties of the license checks of one request *)

Module BatchMore.
Import Ledger LedgerSpec LedgerFacts Orchestrator OrchestratorFacts ExtraSpec.

Section Batch.

Variable env : Env.
Variable config : LedgerServiceConfig.

Lemma valid_entry_same_cache url w w' :
  licenseCache w' = licenseCache w -> now w' = now w ->
  valid_entry config url w' = valid_entry config url w.
Proof. unfold valid_entry. now intros -> ->. Qed.

(** Starting the checks neither reads the clock forward nor writes the
    cache: it only issues requests. *)
Lemma start_checks_world urls : forall w ss w',
  start_checks env config urls w = (Ret ss, w') ->
  licenseCache w' = licenseCache w /\ now w' = now w.
Proof.
  induction urls as [|u rest IH]; intros w ss w'; simpl.
  - intros H. injection H as _ <-. auto.
  - unfold bind at 1. rewrite start_cases.
    destruct (negb (enableTracking config)).
    + unfold bind at 1.
      destruct (start_checks env config rest w) as [[ss'|e] w2] eqn:E; [|discriminate].
      intros H. injection H as _ <-. eapply IH; eauto.
    + destruct (valid_entry config u w).
      * unfold bind at 1.
        destruct (start_checks env config rest w) as [[ss'|e] w2] eqn:E; [|discriminate].
        intros H. injection H as _ <-. eapply IH; eauto.
      * unfold bind at 1.
        destruct (start_checks env config rest (log_event (EvLedgerLicenses u) w))
          as [[ss'|e] w2] eqn:E; [|discriminate].
        intros H. injection H as _ <-. apply IH in E as [-> ->]. auto.
Qed.

Lemma cache_miss_same_cache w w' :
  licenseCache w' = licenseCache w -> now w' = now w ->
  forall u, cache_miss config w' u = cache_miss config w u.
Proof.
  intros Hc Hn u. unfold cache_miss. now rewrite (valid_entry_same_cache u w w').
Qed.

(** Starting the checks issues one lookup for each URL that misses the
    cache as it is when the checks start. *)
Lemma start_checks_trace urls : forall w ss w',
  enableTracking config = true ->
  start_checks env config urls w = (Ret ss, w') ->
  trace w'
  = (rev (map EvLedgerLicenses (List.filter (cache_miss config w) urls))
     ++ trace w)%list.
Proof.
  induction urls as [|u rest IH]; intros w ss w' T; simpl.
  - intros H. injection H as _ <-. reflexivity.
  - unfold bind at 1. rewrite start_cases, T. simpl negb. cbv iota.
    unfold cache_miss at 1. destruct (valid_entry config u w) as [lic|] eqn:V.
    + unfold bind at 1.
      destruct (start_checks env config rest w) as [[ss'|e] w2] eqn:E; [|discriminate].
      intros H. injection H as _ <-. now apply (IH w ss' w2 T).
    + unfold bind at 1.
      destruct (start_checks env config rest (log_event (EvLedgerLicenses u) w))
        as [[ss'|e] w2] eqn:E; [|discriminate].
      intros H. injection H as _ <-.
      rewrite (IH _ _ _ T E). simpl.
      rewrite (List.filter_ext _ _
                 (cache_miss_same_cache w (log_event (EvLedgerLicenses u) w)
                    eq_refl eq_refl)).
      now rewrite <- app_assoc.
Qed.

Lemma arrive_at_trace t0 r w o w1 :
  arrive_at t0 r w = (o, w1) -> trace w1 = trace w.
Proof. unfold arrive_at. intros H. now injection H as _ <-. Qed.

(** Resuming a check of the batch issues no request. *)
Lemma finish_at_trace t0 url r w o w' :
  checkLicense_finish config (arrive_at t0) url r w = (o, w') ->
  trace w' = trace w.
Proof.
  destruct (arrive_at t0 r w) as [[data|e] w1] eqn:A;
    pose proof (arrive_at_trace _ _ _ _ _ A) as Ht.
  - destruct (select_license data) as [e|rec] eqn:S.
    + rewrite (finish_unreadable _ _ _ _ _ _ _ _ A S).
      intros H. now injection H as _ <-.
    + destruct (truthy rec) eqn:T.
      * rewrite (finish_record _ _ _ _ _ _ _ _ A S T).
        intros H. injection H as _ <-. now rewrite stored_trace.
      * rewrite (finish_empty _ _ _ _ _ _ _ _ A S T).
        intros H. now injection H as _ <-.
  - rewrite (finish_rejected _ _ _ _ _ _ _ A). intros H. now injection H as _ <-.
Qed.

Lemma finish_checks_trace t0 pending : forall licenseMap w m w',
  finish_checks config t0 pending licenseMap w = (Ret m, w') ->
  trace w' = trace w.
Proof.
  induction pending as [|[u r] rest IH]; intros licenseMap w m w'; simpl.
  - intros H. now injection H as _ <-.
  - unfold bind at 1.
    destruct (checkLicense_finish config (arrive_at t0) u r w) as [[v|e] w1] eqn:F;
      [|discriminate].
    intros H. apply IH in H as ->. eapply finish_at_trace; eauto.
Qed.

(** Within one request, with tracking on, the lookups issued are exactly
    one for each URL that has no valid cache entry when the request
    starts, duplicates included and in the order of the URLs; a URL with
    a valid entry gets none.  The checks all start before any of them
    has stored a verdict. *)
Theorem batch_looks_up_every_url urls w m w' :
  enableTracking config = true ->
  check_licenses env config urls w = (Ret m, w') ->
  trace w'
  = (rev (map EvLedgerLicenses (List.filter (cache_miss config w) urls))
     ++ trace w)%list.
Proof.
  intros T. unfold check_licenses, bind at 1.
  destruct (start_checks env config urls w) as [[ss|e] w1] eqn:E; [|discriminate].
  unfold bind, date_now. intros H.
  apply finish_checks_trace in H as ->.
  now apply (start_checks_trace urls w ss w1 T).
Qed.

Lemma set_all_keeps vs : forall (m : gmap string LedgerLicenseInfo) k,
  is_Some (m !! k) \/ k ∈ map fst vs -> is_Some (set_all m vs !! k).
Proof.
  unfold set_all. induction vs as [|[u v] vs IH]; intros m k; simpl.
  - intros [H|H]; [exact H|]. apply elem_of_nil in H. contradiction.
  - intros [H|H]; apply IH.
    + left. rewrite lookup_insert. destruct (decide (u = k)); [eauto|exact H].
    + apply elem_of_cons in H as [->|H]; [|now right].
      left. rewrite lookup_insert_eq. eauto.
Qed.

Lemma finish_checks_keeps t0 pending : forall licenseMap w m w' k,
  finish_checks config t0 pending licenseMap w = (Ret m, w') ->
  is_Some (licenseMap !! k) \/ k ∈ map fst pending -> is_Some (m !! k).
Proof.
  induction pending as [|[u r] rest IH]; intros licenseMap w m w' k; simpl.
  - intros H. injection H as <- _. intros [H|H]; [exact H|].
    apply elem_of_nil in H. contradiction.
  - unfold bind at 1.
    destruct (checkLicense_finish config (arrive_at t0) u r w) as [[v|e] w1] eqn:F;
      [|discriminate].
    intros H Hk. eapply IH; [exact H|]. destruct Hk as [Hk|Hk].
    + left. rewrite lookup_insert. destruct (decide (u = k)); [eauto|exact Hk].
    + apply elem_of_cons in Hk as [->|Hk]; [|now right].
      left. rewrite lookup_insert_eq. eauto.
Qed.

Lemma started_split (ss : list (string * Started)) k :
  k ∈ map fst ss ->
  k ∈ map fst (omap settled_of ss) \/ k ∈ map fst (omap pending_of ss).
Proof.
  induction ss as [|[u s] ss IH]; simpl; intros H.
  - apply elem_of_nil in H. contradiction.
  - apply elem_of_cons in H as [->|H].
    + destruct s; simpl; [left|right]; left.
    + destruct (IH H) as [H1|H1]; [left|right];
        destruct s; simpl; auto; now right.
Qed.

Lemma check_licenses_covers urls w m w' u :
  check_licenses env config urls w = (Ret m, w') ->
  u ∈ urls -> is_Some (m !! u).
Proof.
  unfold check_licenses, bind at 1.
  destruct (start_checks env config urls w) as [[ss|e] w1] eqn:E; [|discriminate].
  apply start_checks_urls in E as <-.
  unfold bind, date_now. intros H Hu.
  eapply finish_checks_keeps; [exact H|].
  destruct (started_split ss u Hu) as [H1|H1].
  - left. apply set_all_keeps. now right.
  - right. apply list_elem_of_In, in_map_iff in H1 as (p & <- & Hp).
    apply list_elem_of_In, in_map, list_elem_of_In.
    rewrite merge_sort_Permutation. now apply list_elem_of_In.
Qed.

(** The license map of a request has a verdict for each of its URLs and
    for nothing else. *)
Theorem batch_covers_exactly_the_urls urls w m w' :
  check_licenses env config urls w = (Ret m, w') ->
  forall u, is_Some (m !! u) <-> u ∈ urls.
Proof.
  intros H u. split.
  - now apply (check_licenses_keys env config urls w m w').
  - now apply (check_licenses_covers urls w m w').
Qed.

Lemma start_checks_untracked urls w :
  enableTracking config = false ->
  start_checks env config urls w
    = (Ret (map (fun u => (u, Settled (no_license u))) urls), w).
Proof.
  intros T. induction urls as [|u rest IH]; simpl; [reflexivity|].
  unfold bind at 1. rewrite start_cases, T. simpl.
  unfold bind at 1. rewrite IH. reflexivity.
Qed.

Lemma set_all_uniform (f : string -> LedgerLicenseInfo) urls :
  forall (m : gmap string LedgerLicenseInfo) u,
  u ∈ urls ->
  set_all m (map (fun u => (u, f u)) urls) !! u = Some (f u).
Proof.
  unfold set_all. induction urls as [|k rest IH]; intros m u Hu; simpl.
  - apply elem_of_nil in Hu. contradiction.
  - destruct (decide (u ∈ rest)) as [Hin|Hout]; [now apply IH|].
    apply elem_of_cons in Hu as [->|Hu]; [|contradiction].
    clear IH. revert m. induction rest as [|k' rest IH']; intros m; simpl.
    + now rewrite lookup_insert_eq.
    + apply not_elem_of_cons in Hout as [Hne Hout].
      rewrite insert_insert_ne by congruence. now apply IH'.
Qed.

Lemma none_pending (f : string -> LedgerLicenseInfo) urls :
  omap pending_of (map (fun u => (u, Settled (f u))) urls) = [].
Proof. induction urls as [|u rest IH]; simpl; auto. Qed.

Lemma all_settled (f : string -> LedgerLicenseInfo) urls :
  omap settled_of (map (fun u => (u, Settled (f u))) urls)
  = map (fun u => (u, f u)) urls.
Proof.
  induction urls as [|u rest IH]; simpl; [reflexivity|]. f_equal. exact IH.
Qed.

(** With tracking off the checks of a request issue no request and leave
    the world as it is; every URL gets the bare "not found, unknown"
    verdict. *)
Theorem untracked_batch_is_silent urls w :
  enableTracking config = false ->
  exists m,
    check_licenses env config urls w = (Ret m, w) /\
    forall u, u ∈ urls -> m !! u = Some (no_license u).
Proof.
  intros T. unfold check_licenses, bind at 1.
  rewrite (start_checks_untracked urls w T). unfold bind, date_now.
  rewrite none_pending, all_settled. eexists. split; [reflexivity|].
  intros u Hu. now apply set_all_uniform.
Qed.

Lemma finish_at_sound t0 url r w v w' :
  cache_sound w ->
  checkLicense_finish config (arrive_at t0) url r w = (Ret v, w') ->
  cache_sound w' /\ lic_url v = url.
Proof.
  intros S.
  destruct (arrive_at t0 r w) as [[data|e] w1] eqn:A.
  - assert (S1 : cache_sound w1).
    { unfold arrive_at in A. injection A as _ <-. now apply cache_sound_set_now. }
    destruct (select_license data) as [e|rec] eqn:Sel.
    + rewrite (finish_unreadable _ _ _ _ _ _ _ _ A Sel).
      intros H. injection H as <- <-. auto.
    + destruct (truthy rec) eqn:T.
      * rewrite (finish_record _ _ _ _ _ _ _ _ A Sel T).
        intros H. injection H as <- <-. split; [|reflexivity].
        now apply cache_sound_stored.
      * rewrite (finish_empty _ _ _ _ _ _ _ _ A Sel T).
        intros H. injection H as <- <-. auto.
  - rewrite (finish_rejected _ _ _ _ _ _ _ A). intros H. injection H as <- <-.
    split; [|reflexivity]. unfold arrive_at in A. injection A as _ <-.
    now apply cache_sound_set_now.
Qed.

Lemma filed_by_url_insert m u v :
  filed_by_url m -> lic_url v = u -> filed_by_url (<[u := v]> m).
Proof.
  intros Hm Hv k x. rewrite lookup_insert. destruct (decide (u = k)) as [->|N].
  - intros H. now injection H as <-.
  - apply Hm.
Qed.

Lemma finish_checks_sound t0 pending : forall licenseMap w m w',
  cache_sound w -> filed_by_url licenseMap ->
  finish_checks config t0 pending licenseMap w = (Ret m, w') ->
  cache_sound w' /\ filed_by_url m.
Proof.
  induction pending as [|[u r] rest IH]; intros licenseMap w m w' S F; simpl.
  - intros H. injection H as <- <-. auto.
  - unfold bind at 1.
    destruct (checkLicense_finish config (arrive_at t0) u r w) as [[v|e] w1] eqn:E;
      [|discriminate].
    destruct (finish_at_sound _ _ _ _ _ _ S E) as [S1 Hv].
    apply IH; [exact S1|]. now apply filed_by_url_insert.
Qed.

Lemma start_checks_sound urls : forall w ss w',
  cache_sound w ->
  start_checks env config urls w = (Ret ss, w') ->
  cache_sound w' /\
  Forall (fun p => lic_url (snd p) = fst p) (omap settled_of ss).
Proof.
  induction urls as [|u rest IH]; intros w ss w' S; simpl.
  - intros H. injection H as <- <-. auto.
  - unfold bind at 1. rewrite start_cases.
    destruct (negb (enableTracking config)).
    + unfold bind at 1.
      destruct (start_checks env config rest w) as [[ss'|e] w2] eqn:E; [|discriminate].
      intros H. injection H as <- <-. destruct (IH _ _ _ S E) as [S2 F].
      split; [exact S2|]. simpl. constructor; [reflexivity|exact F].
    + destruct (valid_entry config u w) as [lic|] eqn:V.
      * unfold bind at 1.
        destruct (start_checks env config rest w) as [[ss'|e] w2] eqn:E; [|discriminate].
        intros H. injection H as <- <-. destruct (IH _ _ _ S E) as [S2 F].
        split; [exact S2|]. simpl. constructor; [|exact F]. simpl.
        unfold valid_entry in V. destruct (enableCache config); [|discriminate].
        destruct (licenseCache w !! u) as [c|] eqn:L; [|discriminate].
        destruct (ce_expires c >? now w); [|discriminate].
        injection V as <-. destruct (S _ _ L) as (rec & _ & ->). reflexivity.
      * unfold bind at 1.
        destruct (start_checks env config rest (log_event (EvLedgerLicenses u) w))
          as [[ss'|e] w2] eqn:E; [|discriminate].
        intros H. injection H as <- <-.
        apply IH in E; [|now apply cache_sound_log]. exact E.
Qed.

Lemma set_all_filed vs : forall m,
  filed_by_url m -> Forall (fun p => lic_url (snd p) = fst p) vs ->
  filed_by_url (set_all m vs).
Proof.
  unfold set_all. induction vs as [|[u v] vs IH]; intros m Hm F; simpl; [exact Hm|].
  apply Forall_cons in F as [Hv F]. apply IH; [|exact F].
  now apply filed_by_url_insert.
Qed.

(** The checks of a request keep the cache to verdicts of ledger
    records, in whatever order the replies arrive, and file every verdict
    of the license map under the URL it names. *)
Theorem batch_keeps_cache_sound urls w m w' :
  cache_sound w ->
  check_licenses env config urls w = (Ret m, w') ->
  cache_sound w' /\ forall u v, m !! u = Some v -> lic_url v = u.
Proof.
  intros S. unfold check_licenses, bind at 1.
  destruct (start_checks env config urls w) as [[ss|e] w1] eqn:E; [|discriminate].
  destruct (start_checks_sound _ _ _ _ S E) as [S1 F].
  unfold bind, date_now. intros H.
  eapply finish_checks_sound; [exact S1| |exact H].
  apply set_all_filed; [|exact F]. intros u v. rewrite lookup_empty. discriminate.
Qed.

End Batch.

Lemma batch_keeps_cache_sound_witness :
  exists m w',
    check_licenses Sample.env Sample.config
      ["https://a.example"; "https://b.example"] Sample.world0 = (Ret m, w') /\
    cache_sound w' /\ forall u v, m !! u = Some v -> lic_url v = u.
Proof.
  destruct (check_licenses_returns Sample.env Sample.config
              ["https://a.example"; "https://b.example"] Sample.world0)
    as (m & w' & H).
  exists m, w'. split; [exact H|].
  exact (batch_keeps_cache_sound Sample.env Sample.config _ _ _ _
           (cache_sound_empty _ _) H).
Defined.

Lemma batch_covers_exactly_the_urls_witness :
  exists m w',
    check_licenses Sample.env Sample.config
      ["https://a.example"; "https://b.example"] Sample.world0 = (Ret m, w') /\
    is_Some (m !! "https://b.example") /\ m !! "https://c.example" = None.
Proof.
  destruct (check_licenses_returns Sample.env Sample.config
              ["https://a.example"; "https://b.example"] Sample.world0)
    as (m & w' & H).
  exists m, w'. split; [exact H|].
  pose proof (batch_covers_exactly_the_urls _ _ _ _ _ _ H) as Hcov. split.
  - apply Hcov. right. left.
  - destruct (m !! "https://c.example") eqn:E; [|reflexivity].
    assert (Hin : "https://c.example" ∈ ["https://a.example"; "https://b.example"])
      by (apply Hcov; rewrite E; eauto).
    apply elem_of_cons in Hin as [Hin|Hin]; [discriminate|].
    apply elem_of_cons in Hin as [Hin|Hin]; [discriminate|].
    apply elem_of_nil in Hin. contradiction.
Defined.

Lemma batch_looks_up_every_url_witness :
  exists m w',
    check_licenses Sample.env Sample.config
      ["https://c.example"; "https://a.example"; "https://a.example"]
      (mkWorld 1000
         (<["https://c.example" := mkEntry (no_license "https://c.example") 5000]> ∅)
         []) = (Ret m, w') /\
    trace w' = [EvLedgerLicenses "https://a.example"; EvLedgerLicenses "https://a.example"].
Proof.
  destruct (check_licenses_returns Sample.env Sample.config
              ["https://c.example"; "https://a.example"; "https://a.example"]
              (mkWorld 1000
                 (<["https://c.example" := mkEntry (no_license "https://c.example") 5000]> ∅)
                 []))
    as (m & w' & H).
  exists m, w'. split; [exact H|].
  rewrite (batch_looks_up_every_url Sample.env Sample.config _ _ m w' eq_refl H).
  vm_compute. reflexivity.
Defined.

Lemma untracked_batch_is_silent_witness :
  exists m,
    check_licenses Sample.env
      (mkConfig "https://ledger.copyright.sh" (Some "key") false true 300 5000 8000 3000)
      ["https://a.example"] Sample.world0 = (Ret m, Sample.world0) /\
    m !! "https://a.example" = Some (no_license "https://a.example").
Proof.
  destruct (untracked_batch_is_silent Sample.env
              (mkConfig "https://ledger.copyright.sh" (Some "key") false true 300 5000 8000 3000)
              ["https://a.example"] Sample.world0 eq_refl) as (m & H & Hm).
  exists m. split; [exact H|]. apply Hm. left.
Defined.

End BatchMore.

(** * Further properties of the handler *)

Module HandlerMore.
Import Orchestrator OrchestratorSpec OrchestratorFacts.

Section Handler.

Variable env : Env.
Variable config : LedgerServiceConfig.
Variable tokens : TokenEstimator.
Variable licensedFetchText :
  string -> FetchOptions -> World -> LicensedFetchResult * World.

Local Abbreviation call_tool := (Orchestrator.call_tool env config tokens licensedFetchText).
Local Abbreviation fetch_and_log :=
  (Orchestrator.fetch_and_log env config tokens licensedFetchText).
Local Abbreviation fetch_loop := (Orchestrator.fetch_loop tokens licensedFetchText).
Local Abbreviation fetch_results := (OrchestratorSpec.fetch_results licensedFetchText).

Lemma search_unfold body w :
  Exa.search env body w =
    (match result (exa_search env (trace w) body) with
     | inl e => Throw e
     | inr resp => Ret resp
     end,
     set_now (now w + elapsed (exa_search env (trace w) body))
       (log_event (EvExaSearch body) w)).
Proof. reflexivity. Qed.

(** The handler from the answer of the search on. *)
Lemma call_tool_after_search args w resp wa licenseMap wb fl w' :
  a_query args <> "" ->
  Exa.search env (search_request args) w = (Ret resp, wa) ->
  check_licenses env config (result_urls (default [] (results resp))) wa
    = (Ret licenseMap, wb) ->
  fetch_and_log args (result_urls (default [] (results resp))) wb = (Ret fl, w') ->
  call_tool "copyrightish-exa-search" args w
    = (Ret (mkBody (a_query args) (a_num_results args) (a_type args)
              (requestId resp)
              (map (enrich licenseMap (fst fl)) (default [] (results resp)))
              (snd fl)),
       w').
Proof.
  intros Hq Hsearch Hlic Hfl. unfold Orchestrator.call_tool.
  change (negb ("copyrightish-exa-search" =? "copyrightish-exa-search")) with false.
  cbv iota. apply String.eqb_neq in Hq. rewrite Hq.
  unfold bind at 1. rewrite Hsearch.
  unfold bind at 1. rewrite Hlic.
  unfold bind at 1. rewrite Hfl. reflexivity.
Qed.

(** A call for another tool, or without a query, is refused before
    anything happens: the handler throws and the world is untouched (no
    search, no ledger request, no fetch). *)
Theorem bad_call_is_refused_up_front name args w :
  name <> "copyrightish-exa-search" \/ a_query args = "" ->
  exists e, call_tool name args w = (Throw e, w).
Proof.
  intros H. unfold Orchestrator.call_tool.
  destruct (String.eqb_spec name "copyrightish-exa-search") as [->|Hn]; simpl.
  - destruct H as [H|H]; [congruence|]. rewrite H. simpl. eauto.
  - eauto.
Qed.

(** When the search request is rejected, the handler throws that very
    error; the search is the only request it has issued, and the cache
    is as before. *)
Theorem search_failure_propagates args w e :
  a_query args <> "" ->
  result (exa_search env (trace w) (search_request args)) = inl e ->
  exists w',
    call_tool "copyrightish-exa-search" args w = (Throw e, w') /\
    trace w' = EvExaSearch (search_request args) :: trace w /\
    licenseCache w' = licenseCache w.
Proof.
  intros Hq Hr. unfold Orchestrator.call_tool.
  change (negb ("copyrightish-exa-search" =? "copyrightish-exa-search")) with false.
  cbv iota. apply String.eqb_neq in Hq. rewrite Hq.
  unfold bind at 1. rewrite search_unfold, Hr. eauto.
Qed.

(** With [fetch] off the handler stops after the license checks: the
    engine is not invoked and no usage is logged (the world is the one
    the checks left), no entry has a [fetched] field, and there is no
    [usage_log]. *)
Theorem no_fetch_means_no_fetched_no_usage args w resp wa :
  a_query args <> "" ->
  a_fetch args = false ->
  Exa.search env (search_request args) w = (Ret resp, wa) ->
  exists licenseMap wb body,
    check_licenses env config (result_urls (default [] (results resp))) wa
      = (Ret licenseMap, wb) /\
    call_tool "copyrightish-exa-search" args w = (Ret body, wb) /\
    rb_usage_log body = None /\
    Forall (fun e => en_fetched e = None) (rb_results body).
Proof.
  intros Hq Hf Hsearch.
  destruct (check_licenses_returns env config
              (result_urls (default [] (results resp))) wa) as (lm & wb & Hlic).
  exists lm, wb. eexists. split; [exact Hlic|]. split.
  - eapply call_tool_after_search; eauto.
    unfold Orchestrator.fetch_and_log. rewrite Hf. reflexivity.
  - simpl. split; [reflexivity|]. apply Forall_forall. intros e He.
    apply list_elem_of_In, in_map_iff in He as (r & <- & _). reflexivity.
Qed.

(** With [fetch] on but no hit collected, [logUsage] is not called: the
    handler ends in the world the fetch loop left and reports no
    [usage_log]. *)
Theorem no_hits_means_no_usage_call args w resp wa licenseMap wb fetchedByUrl w1 :
  a_query args <> "" ->
  a_fetch args = true ->
  Exa.search env (search_request args) w = (Ret resp, wa) ->
  check_licenses env config (result_urls (default [] (results resp))) wa
    = (Ret licenseMap, wb) ->
  fetch_loop (fetch_options args) (result_urls (default [] (results resp))) ∅ [] wb
    = ((fetchedByUrl, []), w1) ->
  exists body,
    call_tool "copyrightish-exa-search" args w = (Ret body, w1) /\
    rb_usage_log body = None /\
    rb_results body
      = map (enrich licenseMap (Some fetchedByUrl)) (default [] (results resp)).
Proof.
  intros Hq Hf Hsearch Hlic Hloop. eexists. split.
  - eapply call_tool_after_search; eauto.
    unfold Orchestrator.fetch_and_log. rewrite Hf.
    unfold bind at 1. rewrite Hloop. reflexivity.
  - split; reflexivity.
Qed.

End Handler.

Lemma bad_call_is_refused_up_front_witness :
  exists e,
    Orchestrator.call_tool Sample.env Sample.config Sample.tokens Sample.fetcher
      "exa-search" Sample.args Sample.world0 = (Throw e, Sample.world0).
Proof.
  apply (bad_call_is_refused_up_front Sample.env Sample.config Sample.tokens
           Sample.fetcher "exa-search" Sample.args Sample.world0).
  left. discriminate.
Defined.

Lemma search_failure_propagates_witness :
  exists w',
    Orchestrator.call_tool
      (mkEnv (ledger_licenses Sample.env) (ledger_acquire Sample.env)
         (ledger_usage Sample.env)
         (fun _ _ => mkReply 40 (inl (mkError "AxiosError" "Request failed with status code 401")))
         (http_get Sample.env) (randomUUID Sample.env))
      Sample.config Sample.tokens Sample.fetcher
      "copyrightish-exa-search" Sample.args Sample.world0
    = (Throw (mkError "AxiosError" "Request failed with status code 401"), w') /\
    trace w' = [EvExaSearch (search_request Sample.args)].
Proof.
  destruct (search_failure_propagates
              (mkEnv (ledger_licenses Sample.env) (ledger_acquire Sample.env)
                 (ledger_usage Sample.env)
                 (fun _ _ => mkReply 40 (inl (mkError "AxiosError" "Request failed with status code 401")))
                 (http_get Sample.env) (randomUUID Sample.env))
              Sample.config Sample.tokens Sample.fetcher Sample.args Sample.world0
              (mkError "AxiosError" "Request failed with status code 401"))
    as (w' & H & Ht & _).
  - discriminate.
  - reflexivity.
  - exists w'. split; [exact H | exact Ht].
Defined.

Lemma no_fetch_means_no_fetched_no_usage_witness :
  exists body wb,
    Orchestrator.call_tool Sample.env Sample.config Sample.tokens Sample.fetcher
      "copyrightish-exa-search"
      (mkArgs "AI licensing news" 10 "neural" None None false infer private 1500 200000)
      Sample.world0 = (Ret body, wb) /\
    rb_usage_log body = None /\
    Forall (fun e => en_fetched e = None) (rb_results body).
Proof.
  edestruct (no_fetch_means_no_fetched_no_usage Sample.env Sample.config Sample.tokens
               Sample.fetcher
               (mkArgs "AI licensing news" 10 "neural" None None false infer private 1500 200000)
               Sample.world0)
    as (lm & wb & body & _ & H & Hu & Hf).
  - discriminate.
  - reflexivity.
  - vm_compute. reflexivity.
  - exists body, wb. auto.
Defined.

Lemma no_hits_means_no_usage_call_witness :
  exists body w1,
    Orchestrator.call_tool Sample.env Sample.config Sample.tokens
      (fun u _ w => (mkFetchResult u u 404 None (Some "gone") false false None None None,
                     log_event (EvHttpGet u) w))
      "copyrightish-exa-search" Sample.args Sample.world0 = (Ret body, w1) /\
    rb_usage_log body = None.
Proof.
  edestruct (no_hits_means_no_usage_call Sample.env Sample.config Sample.tokens
               (fun u _ w => (mkFetchResult u u 404 None (Some "gone") false false None None None,
                              log_event (EvHttpGet u) w))
               Sample.args Sample.world0)
    as (body & H & Hu & _).
  - discriminate.
  - reflexivity.
  - vm_compute. reflexivity.
  - vm_compute. reflexivity.
  - vm_compute. reflexivity.
  - eexists _, _. split; [exact H | exact Hu].
Defined.

End HandlerMore.

(** * Further properties of the fetch loop and the response *)

Module LoopMore.
Import Orchestrator OrchestratorSpec OrchestratorFacts.

Section Loop.

Variable env : Env.
Variable config : LedgerServiceConfig.
Variable tokens : TokenEstimator.
Variable licensedFetchText :
  string -> FetchOptions -> World -> LicensedFetchResult * World.

Local Abbreviation call_tool := (Orchestrator.call_tool env config tokens licensedFetchText).
Local Abbreviation fetch_loop := (Orchestrator.fetch_loop tokens licensedFetchText).
Local Abbreviation fetch_results := (OrchestratorSpec.fetch_results licensedFetchText).
Local Abbreviation push_hit := (OrchestratorSpec.push_hit tokens).

Lemma filed_last (fs : list (string * LicensedFetchResult)) :
  forall (m : gmap string LicensedFetchResult) k,
  k ∈ map fst fs ->
  exists pre f post,
    fs = (pre ++ (k, f) :: post)%list /\ (k ∉ map fst post) /\
    foldl (fun acc p => <[fst p := snd p]> acc) m fs !! k = Some f.
Proof.
  induction fs as [|[k' v] fs IH] using rev_ind; intros m k Hk.
  - apply elem_of_nil in Hk. contradiction.
  - rewrite foldl_snoc. simpl. destruct (decide (k' = k)) as [->|Hne].
    + exists fs, v, []. split; [reflexivity|]. split.
      * apply not_elem_of_nil.
      * now rewrite lookup_insert_eq.
    + rewrite map_app in Hk. apply elem_of_app in Hk as [Hk|Hk].
      * destruct (IH m k Hk) as (pre & f & post & -> & Hpost & Hl).
        exists pre, f, (post ++ [(k', v)])%list. split.
        { now rewrite <- app_assoc. }
        split.
        { rewrite map_app. simpl. intros Hin.
          apply elem_of_app in Hin as [Hin|Hin]; [contradiction|].
          apply list_elem_of_singleton in Hin. congruence. }
        rewrite lookup_insert_ne by exact Hne. exact Hl.
      * simpl in Hk. apply list_elem_of_singleton in Hk. congruence.
Qed.

(** [fetchedByUrl] holds, for every URL of the loop, the result of the
    last fetch of that URL: when a URL occurs twice among the results it
    is fetched twice and the later result replaces the earlier. *)
Theorem fetched_is_last_fetch opts urls w fetchedByUrl hs w' u :
  fetch_loop opts urls ∅ [] w = ((fetchedByUrl, hs), w') ->
  u ∈ urls ->
  exists pre f post,
    fetch_results opts urls w = (pre ++ (u, f) :: post)%list /\
    (u ∉ map fst post) /\
    fetchedByUrl !! u = Some f.
Proof.
  rewrite fetch_loop_unfold. intros H Hu. injection H as <- _ _.
  apply filed_last. now rewrite fetch_results_urls.
Qed.

Lemma pushed_all fs : forall hits,
  foldl push_hit hits fs
  = (hits ++ omap (fun p => hit_of tokens (fst p) (snd p)) fs)%list.
Proof.
  induction fs as [|p fs IH]; intros hits; simpl.
  - now rewrite app_nil_r.
  - rewrite IH. unfold OrchestratorSpec.push_hit.
    destruct (hit_of tokens (fst p) (snd p)); [|reflexivity].
    now rewrite <- app_assoc.
Qed.

Lemma hit_urls_sublist (fs : list (string * LicensedFetchResult)) :
  sublist (map hit_url (omap (fun p => hit_of tokens (fst p) (snd p)) fs))
          (map fst fs).
Proof.
  induction fs as [|[u f] fs IH]; simpl; [constructor|].
  destruct (hit_of tokens u f) as [h|] eqn:E; simpl.
  - apply (hit_of_Some tokens) in E as [-> _]. now constructor.
  - now constructor.
Qed.

(** The hits of the batch follow the fetch order: their URLs, in order,
    are a subsequence of the URLs fetched, so there is at most one hit per
    fetch. *)
Theorem hits_follow_fetch_order opts urls w fetchedByUrl hs w' :
  fetch_loop opts urls ∅ [] w = ((fetchedByUrl, hs), w') ->
  sublist (map hit_url hs) urls /\ (length hs <= length urls)%nat.
Proof.
  rewrite fetch_loop_unfold. intros H. injection H as _ <- _.
  rewrite pushed_all. simpl.
  pose proof (hit_urls_sublist (fetch_results opts urls w)) as Hs.
  rewrite fetch_results_urls in Hs. split; [exact Hs|].
  apply sublist_length in Hs. now rewrite length_map in Hs.
Qed.

Lemma listed_url rs r u :
  r ∈ rs -> res_url r = Some u -> u <> "" -> u ∈ result_urls rs.
Proof.
  intros Hr Hu Hne. unfold result_urls. apply list_elem_of_omap.
  exists (Some u). split.
  - apply list_elem_of_In, in_map_iff. exists r. split; [exact Hu|].
    now apply list_elem_of_In.
  - unfold keep_url. destruct (String.eqb_spec u ""); [contradiction|reflexivity].
Qed.

Lemma filed_keeps (fs : list (string * LicensedFetchResult)) :
  forall (m : gmap string LicensedFetchResult) k,
  k ∈ map fst fs ->
  is_Some (foldl (fun acc p => <[fst p := snd p]> acc) m fs !! k).
Proof.
  intros m k Hk. destruct (filed_last fs m k Hk) as (_ & f & _ & _ & _ & ->). eauto.
Qed.

(** Once the search has answered, every result with a non-empty URL
    comes back with a [license] verdict, and with a [fetched] record
    exactly when [fetch] was requested. *)
Theorem usable_url_gets_license_and_fetched args w resp wa :
  a_query args <> "" ->
  Exa.search env (search_request args) w = (Ret resp, wa) ->
  exists body w',
    call_tool "copyrightish-exa-search" args w = (Ret body, w') /\
    Forall (fun e => forall u,
              res_url (en_result e) = Some u -> u <> "" ->
              is_Some (en_license e) /\
              (is_Some (en_fetched e) <-> a_fetch args = true))
           (rb_results body).
Proof.
  intros Hq Hsearch. set (rs := default [] (results resp)).
  destruct (check_licenses_returns env config (result_urls rs) wa)
    as (lm & wb & Hlic).
  assert (Hfl : exists fb ul w',
            Orchestrator.fetch_and_log env config tokens licensedFetchText args
              (result_urls rs) wb = (Ret (fb, ul), w') /\
            (a_fetch args = false -> fb = None) /\
            (a_fetch args = true ->
             exists m, fb = Some m /\
               forall k, k ∈ result_urls rs -> is_Some (m !! k))).
  { unfold Orchestrator.fetch_and_log. destruct (a_fetch args).
    - unfold bind at 1. rewrite fetch_loop_unfold. unfold bind at 1. simpl snd.
      destruct (record_usage_returns env config
                  (foldl push_hit [] (fetch_results (fetch_options args) (result_urls rs) wb))
                  (after_fetches licensedFetchText (fetch_options args) (result_urls rs) wb))
        as (ul & w2 & ->).
      eexists _, _, _. split; [reflexivity|]. split; [discriminate|].
      intros _. eexists. split; [reflexivity|]. intros k Hk.
      apply filed_keeps. now rewrite fetch_results_urls.
    - eexists _, _, _. split; [reflexivity|]. split; [reflexivity|]. discriminate. }
  destruct Hfl as (fb & ul & w' & Hfl & Hoff & Hon).
  eexists _, w'. split.
  { eapply HandlerMore.call_tool_after_search; eauto. }
  simpl. apply Forall_forall. intros e He.
  apply list_elem_of_In, in_map_iff in He as (r & <- & Hr).
  apply list_elem_of_In in Hr. simpl. intros u Hu Hne. rewrite Hu. simpl.
  pose proof (listed_url rs r u Hr Hu Hne) as Hin. split.
  - now apply (BatchMore.check_licenses_covers env config _ _ _ _ _ Hlic).
  - destruct (a_fetch args).
    + destruct (Hon eq_refl) as (m & -> & Hm). split; [reflexivity|].
      intros _. now apply Hm.
    + rewrite (Hoff eq_refl). split; [intros [x Hx]; discriminate | discriminate].
Qed.


(** When tiktoken is unavailable, or its encoder throws, the estimate of a
    non-empty text is its length divided by four, rounded up, hence at
    least one: every fetch with a status from 200 to 299 and a non-empty
    text then yields a hit. *)
Theorem fallback_estimate_counts_every_page u fetched text :
  encoder tokens = None \/
    (exists encode, encoder tokens = Some encode /\ encode text = None) ->
  content_text fetched = Some text ->
  text <> "" ->
  200 <= status fetched < 300 ->
  hit_of tokens u fetched = Some (mkHit u (quarter_up text)) /\
  0 < quarter_up text /\
  text_length text <= 4 * quarter_up text < text_length text + 4.
Proof.
  intros Henc Hc Hne Hst.
  assert (Hest : estimate tokens text = quarter_up text).
  { unfold estimate. destruct (String.eqb_spec text ""); [contradiction|].
    destruct Henc as [->|(encode & -> & ->)]; reflexivity. }
  assert (Hlen : 1 <= text_length text).
  { unfold text_length. destruct text as [|c rest]; [contradiction|].
    simpl utf16_units.
    destruct (Ascii.nat_of_ascii c <? 128)%nat; [lia|].
    destruct (Ascii.nat_of_ascii c <? 192)%nat; [lia|].
    destruct (Ascii.nat_of_ascii c <? 224)%nat; [lia|].
    destruct (Ascii.nat_of_ascii c <? 240)%nat; lia. }
  assert (Hq : text_length text <= 4 * quarter_up text < text_length text + 4).
  { unfold quarter_up.
    pose proof (Z.div_mod (text_length text + 3) 4 ltac:(lia)).
    pose proof (Z.mod_pos_bound (text_length text + 3) 4 ltac:(lia)). lia. }
  split; [|split; [lia|exact Hq]].
  unfold hit_of. rewrite Hc, Hest.
  destruct (String.eqb_spec text ""); [contradiction|]. simpl.
  destruct (Z.leb_spec 200 (status fetched)); [|lia].
  destruct (Z.ltb_spec (status fetched) 300); [|lia]. simpl.
  destruct (Z.ltb_spec 0 (quarter_up text)); [reflexivity|lia].
Qed.

End Loop.

Lemma fetched_is_last_fetch_witness :
  exists fetchedByUrl hs w',
    Orchestrator.fetch_loop Sample.tokens Sample.tiring_fetcher
      (mkOptions infer private 1500 200000)
      ["https://x.example"; "https://x.example"] ∅ [] Sample.world0
      = ((fetchedByUrl, hs), w') /\
    exists pre f post,
      fetch_results Sample.tiring_fetcher (mkOptions infer private 1500 200000)
        ["https://x.example"; "https://x.example"] Sample.world0
        = (pre ++ ("https://x.example", f) :: post)%list /\
      ("https://x.example" ∉ map fst post) /\
      fetchedByUrl !! "https://x.example" = Some f.
Proof.
  destruct (Orchestrator.fetch_loop Sample.tokens Sample.tiring_fetcher
              (mkOptions infer private 1500 200000)
              ["https://x.example"; "https://x.example"] ∅ [] Sample.world0)
    as [[fb hs] w'] eqn:E.
  exists fb, hs, w'. split; [reflexivity|].
  apply (fetched_is_last_fetch Sample.tokens Sample.tiring_fetcher _ _ _ _ _ _
           "https://x.example" E).
  left.
Defined.

Lemma hits_follow_fetch_order_witness :
  exists fetchedByUrl hs w',
    Orchestrator.fetch_loop Sample.tokens Sample.tiring_fetcher
      (mkOptions infer private 1500 200000)
      ["https://x.example"; "https://y.example"] ∅ [] Sample.world0
      = ((fetchedByUrl, hs), w') /\
    sublist (map hit_url hs) ["https://x.example"; "https://y.example"] /\
    (length hs <= 2)%nat.
Proof.
  destruct (Orchestrator.fetch_loop Sample.tokens Sample.tiring_fetcher
              (mkOptions infer private 1500 200000)
              ["https://x.example"; "https://y.example"] ∅ [] Sample.world0)
    as [[fb hs] w'] eqn:E.
  exists fb, hs, w'. split; [reflexivity|].
  exact (hits_follow_fetch_order Sample.tokens Sample.tiring_fetcher _ _ _ _ _ _ E).
Defined.

Lemma usable_url_gets_license_and_fetched_witness :
  exists body w',
    Orchestrator.call_tool Sample.env Sample.config Sample.tokens Sample.fetcher
      "copyrightish-exa-search" Sample.args Sample.world0 = (Ret body, w') /\
    Forall (fun e => forall u,
              res_url (en_result e) = Some u -> u <> "" ->
              is_Some (en_license e) /\
              (is_Some (en_fetched e) <-> a_fetch Sample.args = true))
           (rb_results body).
Proof.
  apply (usable_url_gets_license_and_fetched Sample.env Sample.config Sample.tokens
           Sample.fetcher Sample.args Sample.world0
           (mkSearchResponse
              (Some [mkResult None []; mkResult (Some "undefined") [];
                     mkResult (Some "") []])
              (Some "req-1"))
           (mkWorld 1040 ∅ [EvExaSearch (search_request Sample.args)])).
  - discriminate.
  - reflexivity.
Defined.

Lemma fallback_estimate_counts_every_page_witness :
  hit_of Sample.tokens "https://x.example"
    (mkFetchResult "https://x.example" "https://x.example" 200 (Some "text/html")
       (Some "hello") false false None None None)
  = Some (mkHit "https://x.example" 2) /\
  0 < 2 /\ 5 <= 4 * 2 < 5 + 4.
Proof.
  apply (fallback_estimate_counts_every_page Sample.tokens "https://x.example"
           (mkFetchResult "https://x.example" "https://x.example" 200
              (Some "text/html") (Some "hello") false false None None None)
           "hello").
  - left. reflexivity.
  - reflexivity.
  - discriminate.
  - simpl. lia.
Defined.

End LoopMore.

(** * Properties of the self check and the entry point *)

Module CliMore.
Import Cli.

Lemma unset_or_empty_false v :
  unset_or_empty v = false <-> exists k, v = Some k /\ k <> "".
Proof.
  unfold unset_or_empty. destruct v as [k|].
  - destruct (String.eqb_spec k "") as [->|Hne]; split; try discriminate.
    + intros (k & H & Hk). injection H as <-. contradiction.
    + eauto.
    + reflexivity.
  - split; [discriminate|]. intros (k & H & _). discriminate.
Qed.

Lemma getEnvBool_set penv name d v :
  penv !! name = Some v ->
  (getEnvBool penv name d = true <-> v = "true" \/ v = "1" \/ v = "yes").
Proof.
  unfold getEnvBool. intros ->. rewrite !orb_true_iff, !String.eqb_eq. tauto.
Qed.

Lemma doctor_returns_iff penv :
  snd (doctor penv) = None <->
  unset_or_empty (penv !! "EXA_API_KEY") = false /\
  unset_or_empty (penv !! "COPYRIGHTSH_LEDGER_API_KEY") = false.
Proof.
  unfold doctor, doctor_issues.
  destruct (unset_or_empty (penv !! "EXA_API_KEY"));
    destruct (unset_or_empty (penv !! "COPYRIGHTSH_LEDGER_API_KEY")); simpl;
    split; try discriminate; try tauto; intros [? ?]; discriminate.
Qed.

(** [doctor] ends the process with code 1 unless both the Exa key and
    the ledger key are set and non-empty; only then does it return, and
    its last line is the "Ready" status exactly in that case. *)
Theorem doctor_passes_iff_both_keys penv :
  (snd (doctor penv) = None \/ snd (doctor penv) = Some 1) /\
  (snd (doctor penv) = None <->
     (exists k, penv !! "EXA_API_KEY" = Some k /\ k <> "") /\
     (exists k, penv !! "COPYRIGHTSH_LEDGER_API_KEY" = Some k /\ k <> "")) /\
  (last (fst (doctor penv)) = Some "Status: ✅ Ready" <-> snd (doctor penv) = None).
Proof.
  rewrite <- !unset_or_empty_false. unfold doctor, doctor_issues.
  destruct (unset_or_empty (penv !! "EXA_API_KEY"));
    destruct (unset_or_empty (penv !! "COPYRIGHTSH_LEDGER_API_KEY")); simpl;
    (split; [auto|]); split; split; try discriminate; try tauto;
    intros [? ?]; discriminate.
Qed.

(** The server is started exactly when the command line asks for none
    of help, version, [--list-tools] and [--doctor], and the Exa key is
    set and non-empty; with that key the [ExaClient] constructor does not
    throw. *)
Theorem main_serves_only_with_key argv penv k :
  main argv penv = Serving k <->
  argv_help argv = false /\ argv_version argv = false /\
  argv_list_tools argv = false /\ argv_doctor argv = false /\
  penv !! "EXA_API_KEY" = Some k /\ k <> "" /\
  new_ExaClient k None = inr (mkExaClient "https://api.exa.ai" k).
Proof.
  unfold main, new_ExaClient. destruct argv as [h v lt df]. simpl.
  destruct h; [split; [discriminate|intros [? _]; discriminate]|].
  destruct v; [split; [discriminate|intros (_ & ? & _); discriminate]|].
  destruct lt; [split; [discriminate|intros (_ & _ & ? & _); discriminate]|].
  destruct df.
  { destruct (doctor penv).
    split; [discriminate|intros (_ & _ & _ & ? & _); discriminate]. }
  simpl. unfold unset_or_empty. destruct (penv !! "EXA_API_KEY") as [s0|].
  - destruct (String.eqb_spec s0 "") as [->|Hne].
    + split; [discriminate|]. intros (_ & _ & _ & _ & H & Hk & _).
      injection H as <-. contradiction.
    + simpl. split.
      * intros H. injection H as <-. repeat split; auto.
        destruct (String.eqb_spec s0 ""); [contradiction|reflexivity].
      * intros (_ & _ & _ & _ & H & _). now injection H as ->.
  - split; [discriminate|]. intros (_ & _ & _ & _ & H & _). discriminate.
Qed.

Example help_stops_before_the_server :
  main (mkArgv true false false false) Sample.process_env = ServedByYargs.
Proof. reflexivity. Qed.

Example server_starts_with_key :
  main (mkArgv false false false false) Sample.process_env = Serving "exa-12345678".
Proof. vm_compute. reflexivity. Qed.

Section Ledger.
Variable env : Env.
Variable config : LedgerServiceConfig.

(** What [doctor] says about the ledger key is what the ledger client
    does with it: a service built from the same environment refuses
    [acquireLicenseToken] and [logUsage] exactly when [doctor] lists the
    key as missing, and otherwise sends the usage POST. *)
Theorem doctor_agrees_with_ledger_client penv :
  apiKey config = ledger_apiKey penv ->
  (Ledger.has_key config = false <->
   "COPYRIGHTSH_LEDGER_API_KEY missing (required for acquire + usage logging)"
     ∈ doctor_issues penv) /\
  (snd (doctor penv) = None ->
   forall payload w,
     exists o w', Ledger.logUsage env config payload w = (o, w') /\
                  trace w' = EvLedgerUsage payload :: trace w).
Proof.
  intros Hk.
  assert (Hkey : Ledger.has_key config
                 = negb (unset_or_empty (penv !! "COPYRIGHTSH_LEDGER_API_KEY"))).
  { unfold Ledger.has_key, unset_or_empty. rewrite Hk. unfold ledger_apiKey.
    destruct (penv !! "COPYRIGHTSH_LEDGER_API_KEY"); reflexivity. }
  split.
  - rewrite Hkey. unfold doctor_issues.
    destruct (unset_or_empty (penv !! "EXA_API_KEY"));
      destruct (unset_or_empty (penv !! "COPYRIGHTSH_LEDGER_API_KEY")); simpl;
      split; intros H; try discriminate; try reflexivity;
      repeat (apply elem_of_cons in H as [H|H]; [discriminate|]);
      try (apply elem_of_nil in H; contradiction).
    + right. left.
    + left.
  - intros Hd payload w.
    apply doctor_returns_iff in Hd as [_ Hd].
    unfold Ledger.logUsage. rewrite Hkey, Hd. simpl.
    unfold bind, send, await. simpl. eauto.
Qed.

End Ledger.

Lemma doctor_agrees_with_ledger_client_witness :
  snd (doctor Sample.process_env) = None /\
  exists o w',
    Ledger.logUsage Sample.env
      (mkConfig "https://ledger.copyright.sh" (Some "cs-ledger-1") true false
         300 5000 8000 3000)
      (mkUsage "gen-1" [mkHit "https://x.example" 2]) Sample.world0 = (o, w') /\
    trace w' = [EvLedgerUsage (mkUsage "gen-1" [mkHit "https://x.example" 2])].
Proof.
  split; [vm_compute; reflexivity|].
  apply (proj2 (doctor_agrees_with_ledger_client Sample.env
                  (mkConfig "https://ledger.copyright.sh" (Some "cs-ledger-1") true false
                     300 5000 8000 3000)
                  Sample.process_env ltac:(vm_compute; reflexivity))).
  vm_compute. reflexivity.
Defined.

Example doctor_without_ledger_key :
  doctor (<["EXA_API_KEY" := "exa-12345678"]> ∅)
  = (["🩺 Copyright.sh Exa MCP Doctor";
      "- EXA_API_KEY: set (exa-12…)";
      "- COPYRIGHTSH_LEDGER_API: https://ledger.copyright.sh";
      "- COPYRIGHTSH_LEDGER_API_KEY: MISSING";
      "Status: ❌ COPYRIGHTSH_LEDGER_API_KEY missing (required for acquire + usage logging)"],
     Some 1).
Proof. vm_compute. reflexivity. Qed.

Example tracking_flag_in_capitals_is_off :
  getEnvBool (<["ENABLE_LICENSE_TRACKING" := "TRUE"]> ∅) "ENABLE_LICENSE_TRACKING" true
  = false.
Proof. vm_compute. reflexivity. Qed.

End CliMore.
